(** * The schema registry of norman's [types] package

    A model of [vendor/github.com/rancher/norman/pkg/types/schemas.go]:
    the error aggregator ([NewErrors], [MultiErrors.Error]) and the
    registry of schemas ([Schemas]) with its operations.

    Go values are modelled as follows.
    - A [*Schema] is a location in a heap of [Schema] records, so that two
      references to one record see each other's writes.
    - A Go map is a [gmap]; the maps are those [NewSchemas] allocates.
    - An [error] is an inductive value with a constructor for [nil].
    - A run-time panic (a nil dereference, [panic(err)]) is the outcome
      [Panic]; every operation is a function from the state before the call
      to the outcome of the call.
    - [sync.Mutex] is left out: the model is of one caller at a time. *)

From Stdlib Require Import Ascii String.
From stdpp Require Import base option list gmap strings.

Set Warnings "-register-all".

(** ** Outcomes *)

Inductive outcome (A : Type) : Type :=
| Done (a : A)
| Panic.

Arguments Done {A} a.
Arguments Panic {A}.

(** ** Errors *)

Module Errors.

(** The values of Go's interface type [error] that this file produces or
    passes on: [nil], an error carrying a message (what [fmt.Errorf]
    returns), and a pointer to a [MultiErrors]. *)
Inductive error : Type :=
| nil
| Errorf (msg : string)
| MultiErrors (Errors : list error).

(** [err != nil] *)
Definition notNil (err : error) : bool :=
  match err with
  | nil => false
  | _ => true
  end.

(** [buf.WriteString(", ")] guarded by [buf.Len() > 0], followed by
    [buf.WriteString(msg)]. *)
Definition write (buf msg : string) : string :=
  (if Nat.ltb 0 (String.length buf) then buf +:+ ", " else buf) +:+ msg.

(** [err.Error()]. The method of [*MultiErrors] is the loop of the source;
    calling [Error] on a nil interface value panics. *)
Fixpoint Error (err : error) : outcome string :=
  match err with
  | nil => Panic
  | Errorf msg => Done msg
  | MultiErrors errs =>
      (fix loop (buf : string) (errs : list error) : outcome string :=
         match errs with
         | [] => Done buf
         | err :: errs =>
             match Error err with
             | Done msg => loop (write buf msg) errs
             | Panic => Panic
             end
         end) "" errs
  end.

(** The loop of [NewErrors] that keeps the entries that are not nil. *)
Definition collect (inErrors : list error) : list error :=
  foldl (fun errors err => if notNil err then errors ++ [err] else errors)
        [] inErrors.

Definition NewErrors (inErrors : list error) : error :=
  let errors := collect inErrors in
  match errors with
  | [] => nil
  | [err] => err
  | _ => MultiErrors errors
  end.

(** The accumulator [Errors], a struct around its slice [errors], with its
    methods [Add] and [Err]. *)
Definition Add (e : list error) (err : error) : list error :=
  if notNil err then e ++ [err] else e.

Definition Err (e : list error) : error := NewErrors e.

(** *** Specification-level vocabulary *)

(** The entries that are present. *)
Definition present (inErrors : list error) : list error :=
  List.filter notNil inErrors.

(** The message of every error of a list, when none of the calls panics. *)
Fixpoint messages (errs : list error) : outcome (list string) :=
  match errs with
  | [] => Done []
  | err :: errs =>
      match Error err, messages errs with
      | Done msg, Done msgs => Done (msg :: msgs)
      | _, _ => Panic
      end
  end.

(** Plain concatenation of messages, nothing in between. *)
Definition concatenation (msgs : list string) : string :=
  String.concat "" msgs.

(** The messages in order, with [", "] written before a message whenever
    the text accumulated so far is not empty. *)
Definition joined (msgs : list string) : string :=
  foldl write "" msgs.

End Errors.

Import Errors.

(** ** Operations on a state that may panic *)

Definition act (S A : Type) : Type := S -> outcome (A * S).

Definition ret {S A} (a : A) : act S A := fun w => Done (a, w).

Definition bind {S A B} (m : act S A) (k : A -> act S B) : act S B :=
  fun w =>
    match m w with
    | Done (a, w') => k a w'
    | Panic => Panic
    end.

Definition crash {S A} : act S A := fun _ => Panic.

Notation "'let*' x ':=' m 'in' k" := (bind m (fun x => k))
  (at level 10, x name, m at level 100, k at level 200).
Notation "'let*' ' pat ':=' m 'in' k" :=
  (bind m (fun x => match x with pat => k end))
  (at level 10, pat pattern, m at level 100, k at level 200).
Notation "m ';;' k" := (bind m (fun _ => k))
  (at level 100, k at level 200, right associativity).

(** ** The registry *)

(** A [*Schema]: the index of a record in the heap. *)
Definition loc : Type := nat.

Module Registry.

Set Implicit Arguments.

Section Model.

(** The fields of [Schema] that this file does not read or write; the
    declaration of [Schema] is in another file of the package. *)
Variable Payload : Type.

(** The interface type [Mapper], declared in another file of the package. *)
Variable Mapper : Type.

Record Schema : Type := mkSchema {
  ID : string;
  PluralName : string;
  CodeName : string;
  CodeNamePlural : string;
  Type_ : string;
  payload : Payload
}.

Definition MapperFactory : Type := unit -> Mapper.
Definition FieldMapperFactory : Type := string -> list string -> Mapper.

(** [Schemas], without its mutex and without [processingTypes], [typeNames]
    and [embedded], which no function of the file reads or writes once
    [NewSchemas] has made them. [fieldMappers] is the one map that
    [NewSchemas] leaves nil. *)
Record Schemas : Type := mkSchemas {
  schemasByID : gmap string loc;
  mappers : gmap string (list Mapper);
  fieldMappers : option (gmap string FieldMapperFactory);
  DefaultMapper : option MapperFactory;
  DefaultPostMapper : option MapperFactory;
  schemas : list loc
}.

(** The memory the operations run in: the [Schema] records that have been
    allocated, and the registry [s] the methods are called on. *)
Record World : Type := mkWorld {
  heap : list Schema;
  reg : Schemas
}.

Definition M (A : Type) : Type := act World A.

(** *** Field updates *)

Definition with_Type (t : string) (c : Schema) : Schema :=
  mkSchema (ID c) (PluralName c) (CodeName c) (CodeNamePlural c) t (payload c).
Definition with_PluralName (n : string) (c : Schema) : Schema :=
  mkSchema (ID c) n (CodeName c) (CodeNamePlural c) (Type_ c) (payload c).
Definition with_CodeName (n : string) (c : Schema) : Schema :=
  mkSchema (ID c) (PluralName c) n (CodeNamePlural c) (Type_ c) (payload c).
Definition with_CodeNamePlural (n : string) (c : Schema) : Schema :=
  mkSchema (ID c) (PluralName c) (CodeName c) n (Type_ c) (payload c).

Definition with_schemasByID (m : gmap string loc) (s : Schemas) : Schemas :=
  mkSchemas m (mappers s) (fieldMappers s) (DefaultMapper s)
            (DefaultPostMapper s) (schemas s).
Definition with_mappers (m : gmap string (list Mapper)) (s : Schemas)
  : Schemas :=
  mkSchemas (schemasByID s) m (fieldMappers s) (DefaultMapper s)
            (DefaultPostMapper s) (schemas s).
Definition with_fieldMappers (m : option (gmap string FieldMapperFactory))
  (s : Schemas) : Schemas :=
  mkSchemas (schemasByID s) (mappers s) m (DefaultMapper s)
            (DefaultPostMapper s) (schemas s).
Definition with_schemas (l : list loc) (s : Schemas) : Schemas :=
  mkSchemas (schemasByID s) (mappers s) (fieldMappers s) (DefaultMapper s)
            (DefaultPostMapper s) l.

(** *** Memory *)

Definition getReg : M Schemas := fun w => Done (reg w, w).

Definition modifyReg (f : Schemas -> Schemas) : M unit :=
  fun w => Done (tt, mkWorld (heap w) (f (reg w))).

(** [*p] read. *)
Definition load (p : loc) : M Schema :=
  fun w =>
    match heap w !! p with
    | Some c => Done (c, w)
    | None => Panic
    end.

(** [*p = c] *)
Definition store (p : loc) (c : Schema) : M unit :=
  fun w =>
    match heap w !! p with
    | Some _ => Done (tt, mkWorld (<[p := c]> (heap w)) (reg w))
    | None => Panic
    end.

(** [&schema] of a local [schema] that outlives the call: a new record. *)
Definition escape (c : Schema) : M loc :=
  fun w => Done (length (heap w), mkWorld (heap w ++ [c]) (reg w)).

(** *** What the file takes from elsewhere *)

(** [name.GuessPluralName] and [convert.Capitalize]. *)
Variable GuessPluralName : string -> string.
Variable Capitalize : string -> string.

(** [strings.EqualFold]. *)
Variable EqualFold : string -> string -> bool.

(** The text [fmt] prints for [%v] of a [*Schema]. *)
Variable Sprint : Schema -> string.

(** [merr.NewErrors], the aggregator of the wrangler package. *)
Variable merrNewErrors : list error -> error.

(** [(s *Schemas) assignMappers(schema *Schema) error], defined in another
    file of the package. It is given the registry and a pointer to the
    local [schema] of its caller: here it takes the value of that local and
    returns the value it leaves there together with its error. *)
Variable assignMappers : Schema -> M (Schema * error).

(** *** The operations *)

Definition setupDefaults (schema : Schema) : M (Schema * error) :=
  let schema := with_Type "schema" schema in
  if String.eqb (ID schema) "" then
    ret (schema, Errorf ("ID is not set on schema: " +:+ Sprint schema))
  else
    let schema :=
      if String.eqb (PluralName schema) ""
      then with_PluralName (GuessPluralName (ID schema)) schema
      else schema in
    let schema :=
      if String.eqb (CodeName schema) ""
      then with_CodeName (Capitalize (ID schema)) schema
      else schema in
    let schema :=
      if String.eqb (CodeNamePlural schema) ""
      then with_CodeNamePlural (GuessPluralName (CodeName schema)) schema
      else schema in
    let* '(schema, err) := assignMappers schema in
    if notNil err then ret (schema, err) else ret (schema, nil).

Definition doAddSchema (schema : Schema) : M error :=
  let* '(schema, err) := setupDefaults schema in
  if notNil err then ret err
  else
    let* s := getReg in
    match schemasByID s !! ID schema with
    | Some existing =>
        store existing schema;;
        ret nil
    | None =>
        let* p := escape schema in
        modifyReg (fun s => with_schemasByID (<[ID schema := p]> (schemasByID s)) s);;
        modifyReg (fun s => with_schemas (schemas s ++ [p]) s);;
        ret nil
    end.

Definition AddSchema (schema : Schema) : M error := doAddSchema schema.

Definition MustAddSchema (schema : Schema) : M unit :=
  let* err := AddSchema schema in
  if notNil err then crash else ret tt.

Definition doRemoveSchema (schema : Schema) : M unit :=
  modifyReg (fun s => with_schemasByID (delete (ID schema) (schemasByID s)) s).

Definition RemoveSchema (schema : Schema) : M unit := doRemoveSchema schema.

(** [s.Schemas()] and [s.SchemasByID()] *)
Definition Schemas_ (s : Schemas) : list loc := schemas s.
Definition SchemasByID (s : Schemas) : gmap string loc := schemasByID s.

(** [s.mapper(schemaID)]: indexing a Go map at a missing key gives the zero
    value, a nil slice. *)
Definition mapper (s : Schemas) (schemaID : string) : list Mapper :=
  default [] (mappers s !! schemaID).

Definition AddMapper (schemaID : string) (m : Mapper) : M unit :=
  modifyReg (fun s =>
    with_mappers (<[schemaID := mapper s schemaID ++ [m]]> (mappers s)) s).

Definition AddFieldMapper (name : string) (factory : FieldMapperFactory)
  : M unit :=
  modifyReg (fun s =>
    let s := match fieldMappers s with
             | None => with_fieldMappers (Some ∅) s
             | Some _ => s
             end in
    with_fieldMappers (insert name factory <$> fieldMappers s) s).

(** The loop of [doSchema] over [s.schemas]. *)
Fixpoint scan (name : string) (l : list loc) : M (option loc) :=
  match l with
  | [] => ret None
  | check :: l =>
      let* c := load check in
      if EqualFold (ID c) name || EqualFold (PluralName c) name
      then ret (Some check)
      else scan name l
  end.

Definition doSchema (name : string) (lock : bool) : M (option loc) :=
  let* s := getReg in
  match schemasByID s !! name with
  | Some schema => ret (Some schema)
  | None => scan name (schemas s)
  end.

Definition Schema_ (name : string) : M (option loc) := doSchema name true.

(** The loop of [AddSchemas] over the slice [schema.Schemas()] returned
    before the first iteration. *)
Fixpoint addAll (l : list loc) (errs : list error) : M (list error) :=
  match l with
  | [] => ret errs
  | p :: l =>
      let* schema := load p in
      let* err := AddSchema schema in
      addAll l (if notNil err then errs ++ [err] else errs)
  end.

Definition AddSchemas (schema : Schemas) : M error :=
  let* errs := addAll (Schemas_ schema) [] in
  ret (merrNewErrors errs).

(** The registry [NewSchemas] builds before it merges anything. *)
Definition emptySchemas : Schemas :=
  mkSchemas ∅ ∅ None None None [].

(** The loop of [NewSchemas] over its arguments. *)
Fixpoint mergeAll (l : list Schemas) (errs : list error) : M (list error) :=
  match l with
  | [] => ret errs
  | schemas :: l =>
      let* err := AddSchemas schemas in
      mergeAll l (if notNil err then errs ++ [err] else errs)
  end.

(** [NewSchemas(schemas...)], run over the records allocated so far: the
    new registry is the [reg] of the world it returns. *)
Definition NewSchemas (schemas : list Schemas) (h : list Schema)
  : outcome (error * World) :=
  (let* errs := mergeAll schemas [] in ret (merrNewErrors errs))
    (mkWorld h emptySchemas).

(** *** Specification-level vocabulary *)

(** A record answers to [name] in the scan of [doSchema]. *)
Definition answers (name : string) (c : Schema) : bool :=
  EqualFold (ID c) name || EqualFold (PluralName c) name.

(** [p] is the first pointer of [l] whose record answers to [name]. *)
Definition firstAnswer (name : string) (h : list Schema) (l : list loc)
  (p : loc) : Prop :=
  ∃ i c,
    l !! i = Some p ∧ h !! p = Some c ∧ answers name c = true ∧
    ∀ j q, j < i → l !! j = Some q →
           ∃ c', h !! q = Some c' ∧ answers name c' = false.

(** No record of [l] answers to [name]. *)
Definition noAnswer (name : string) (h : list Schema) (l : list loc) : Prop :=
  ∀ q, q ∈ l → ∃ c', h !! q = Some c' ∧ answers name c' = false.

(** [after] is [before] with its identity fields normalised. *)
Definition normalised (before after : Schema) : Prop :=
  Type_ after = "schema" ∧
  ID after = ID before ∧
  PluralName after =
    (if String.eqb (PluralName before) "" then GuessPluralName (ID before)
     else PluralName before) ∧
  CodeName after =
    (if String.eqb (CodeName before) "" then Capitalize (ID before)
     else CodeName before) ∧
  CodeNamePlural after =
    (if String.eqb (CodeNamePlural before) ""
     then GuessPluralName (CodeName after)
     else CodeNamePlural before).

(** The schema that [setupDefaults] hands to [assignMappers]. *)
Definition defaults (c : Schema) : Schema :=
  let plural :=
    if String.eqb (PluralName c) "" then GuessPluralName (ID c)
    else PluralName c in
  let code :=
    if String.eqb (CodeName c) "" then Capitalize (ID c) else CodeName c in
  let codePlural :=
    if String.eqb (CodeNamePlural c) "" then GuessPluralName code
    else CodeNamePlural c in
  mkSchema (ID c) plural code codePlural "schema" (payload c).

(** The error of [setupDefaults] for a schema without ID. *)
Definition idNotSet (c : Schema) : error :=
  Errorf ("ID is not set on schema: " +:+ Sprint (with_Type "schema" c)).

(** A sequence of [AddMapper] calls, each a schema ID and a mapper. *)
Fixpoint addMappers (calls : list (string * Mapper)) : M unit :=
  match calls with
  | [] => ret tt
  | (schemaID, m) :: calls => AddMapper schemaID m;; addMappers calls
  end.

(** What the theorems about registration ask of [assignMappers]: that it
    leaves the identity fields of the schema it is given, ... *)
Definition keepsIdentity : Prop :=
  ∀ c w c' err w',
    assignMappers c w = Done ((c', err), w') →
    ID c' = ID c ∧ PluralName c' = PluralName c ∧ CodeName c' = CodeName c ∧
    CodeNamePlural c' = CodeNamePlural c ∧ Type_ c' = Type_ c.

(** ... and that it leaves the records already allocated, [schemasByID]
    and [schemas] (it may change the mapper chains). *)
Definition keepsRecords : Prop :=
  ∀ c w c' err w',
    assignMappers c w = Done ((c', err), w') →
    heap w' = heap w ∧
    schemasByID (reg w') = schemasByID (reg w) ∧
    schemas (reg w') = schemas (reg w).

(** Every schema of a snapshot passed to [AddSchema] in turn, whatever the
    earlier calls returned: the value passed and the error returned, one
    pair per entry of the snapshot. *)
Fixpoint attempts (l : list loc) : M (list (Schema * error)) :=
  match l with
  | [] => ret []
  | p :: l =>
      let* schema := load p in
      let* err := AddSchema schema in
      let* rest := attempts l in
      ret ((schema, err) :: rest)
  end.

(** Modelled from the spec: [assignMappers] is not in this file. The spec
    (4.2) says that when the registry holds a [DefaultMapper] and/or a
    [DefaultPostMapper] factory they are instantiated and put before and
    after the mappers of the schema's chain in the mapper chain store. *)
Definition assignDefaultMappers (schema : Schema) : M (Schema * error) :=
  let* s := getReg in
  let pre := match DefaultMapper s with Some f => [f tt] | None => [] end in
  let post :=
    match DefaultPostMapper s with Some f => [f tt] | None => [] end in
  match pre ++ post with
  | [] => ret (schema, nil)
  | _ =>
      modifyReg (fun s =>
        with_mappers
          (<[ID schema := pre ++ mapper s (ID schema) ++ post]> (mappers s))
          s);;
      ret (schema, nil)
  end.

(** [EmptySchemas()]: the registry of [NewSchemas()], its error dropped. *)
Definition EmptySchemas (h : list Schema) : outcome (Schemas * World) :=
  match NewSchemas [] h with
  | Done (_, w) => Done (reg w, w)
  | Panic => Panic
  end.

(** [s.Init(initFunc)] *)
Definition Init (initFunc : M unit) : M unit := initFunc.

(** The shape of the states that registration builds: every pointer of
    the ordered sequence is that of an allocated record, no pointer occurs
    twice in it, and every key of [schemasByID] leads to a record of the
    ordered sequence whose ID is the key. *)
Definition wellFormed (w : World) : Prop :=
  Forall (fun p => p < length (heap w)) (schemas (reg w)) ∧
  NoDup (schemas (reg w)) ∧
  ∀ k p, schemasByID (reg w) !! k = Some p →
         p ∈ schemas (reg w) ∧ ∃ c, heap w !! p = Some c ∧ ID c = k.

(** [assignMappers] returns, with or without an error. *)
Definition returns : Prop := ∀ c w, assignMappers c w ≠ Panic.

(** From [w] to [w'] the ordered sequence and the heap have only grown at
    their ends, and every record that is not in the ordered sequence of [w]
    holds in [w'] the value it holds in [w] and is not in the ordered
    sequence of [w'] either. *)
Definition grows (w w' : World) : Prop :=
  schemas (reg w) `prefix_of` schemas (reg w') ∧
  length (heap w) ≤ length (heap w') ∧
  ∀ q held, heap w !! q = Some held → q ∉ schemas (reg w) →
            heap w' !! q = Some held ∧ q ∉ schemas (reg w').

End Model.

Unset Implicit Arguments.

End Registry.

Import Registry.

(** ** A concrete registry

    The instances below fix what the model takes from elsewhere, for the
    scenarios of the specification: schemas without further fields, mappers
    known by name, and ASCII text. *)

Module Sample.

Definition lower (c : ascii) : ascii :=
  let n := nat_of_ascii c in
  if Nat.leb 65 n && Nat.leb n 90 then ascii_of_nat (n + 32) else c.

Definition upper (c : ascii) : ascii :=
  let n := nat_of_ascii c in
  if Nat.leb 97 n && Nat.leb n 122 then ascii_of_nat (n - 32) else c.

(** [strings.EqualFold] on ASCII text. *)
Fixpoint EqualFold (s t : string) : bool :=
  match s, t with
  | EmptyString, EmptyString => true
  | String a s, String b t => Ascii.eqb (lower a) (lower b) && EqualFold s t
  | _, _ => false
  end.

(** A plural in [s]; [name.GuessPluralName] has more rules. *)
Definition GuessPluralName (s : string) : string := s +:+ "s".

(** [convert.Capitalize] on ASCII text: the first letter in upper case. *)
Definition Capitalize (s : string) : string :=
  match s with
  | EmptyString => EmptyString
  | String a s => String (upper a) s
  end.

Definition Sprint (c : Schema unit) : string :=
  "&{" +:+ ID c +:+ " " +:+ PluralName c +:+ " " +:+ CodeName c +:+ " "
       +:+ CodeNamePlural c +:+ " " +:+ Type_ c +:+ "}".

Abbreviation World := (World unit string).

Definition assignMappers : Schema unit -> M unit string (Schema unit * error) :=
  @assignDefaultMappers unit string.

Definition AddSchema : Schema unit -> M unit string error :=
  AddSchema GuessPluralName Capitalize Sprint assignMappers.

Definition MustAddSchema : Schema unit -> M unit string unit :=
  MustAddSchema GuessPluralName Capitalize Sprint assignMappers.

Definition AddSchemas : Schemas string -> M unit string error :=
  AddSchemas GuessPluralName Capitalize Sprint NewErrors assignMappers.

Definition RemoveSchema : Schema unit -> M unit string unit :=
  @RemoveSchema unit string.

Definition Schema_ : string -> M unit string (option loc) :=
  Schema_ EqualFold.

(** [Schema{ID: id, PluralName: plural}] *)
Definition schema (id plural : string) : Schema unit :=
  mkSchema id plural "" "" "" tt.

(** An empty registry and no record allocated. *)
Definition start : World := mkWorld [] (emptySchemas string).

(** The world a call leaves behind, the world before it when it panics. *)
Definition after {A} (m : M unit string A) (w : World) : World :=
  match m w with
  | Done (_, w') => w'
  | Panic => w
  end.

(** What a call returns. *)
Definition result {A} (m : M unit string A) (w : World) : option A :=
  match m w with
  | Done (a, _) => Some a
  | Panic => None
  end.

(** The registry that holds ["x"] with plural ["xs"]. *)
Definition registered_x : World := after (AddSchema (schema "x" "xs")) start.

(** A caller's variable holding [Schema{ID: "x"}], and an empty registry. *)
Definition caller_holds_x : World :=
  mkWorld [schema "x" ""] (emptySchemas string).

(** Three records, the first without ID, and a registry [batch] whose
    ordered sequence is these three; the registry called on is empty. *)
Definition three_records : World :=
  mkWorld [schema "" ""; schema "a" ""; schema "b" ""] (emptySchemas string).

Definition batch : Schemas string :=
  mkSchemas ∅ ∅ None None None [0; 1; 2].

End Sample.

(** * Facts *)

(** ** The error aggregator *)

Module ErrorsFacts.

Lemma collect_from (acc inErrors : list error) :
  foldl (fun errors err => if notNil err then errors ++ [err] else errors)
        acc inErrors
  = acc ++ present inErrors.
Proof.
  revert acc. induction inErrors as [|err rest IH]; intros acc; simpl.
  - by rewrite app_nil_r.
  - rewrite IH. destruct (notNil err); simpl; [|done].
    by rewrite <- app_assoc.
Qed.

Lemma collect_present (inErrors : list error) :
  collect inErrors = present inErrors.
Proof. unfold collect. by rewrite collect_from. Qed.

Lemma present_nil (inErrors : list error) :
  Forall (fun err => err = nil) inErrors → present inErrors = [].
Proof.
  induction 1 as [|err rest Herr _ IH]; [done|].
  subst err. simpl. exact IH.
Qed.

Lemma present_notNil (inErrors : list error) :
  Forall (fun err => err ≠ nil) (present inErrors).
Proof.
  induction inErrors as [|err rest IH]; simpl; [constructor|].
  destruct err; simpl; auto; constructor; auto; discriminate.
Qed.

(** The loop of [MultiErrors.Error] started on a buffer [buf]. *)
Lemma Error_loop (errs : list error) (buf : string) :
  (fix loop (buf : string) (errs : list error) : outcome string :=
     match errs with
     | [] => Done buf
     | err :: errs =>
         match Error err with
         | Done msg => loop (write buf msg) errs
         | Panic => Panic
         end
     end) buf errs
  = match messages errs with
    | Done msgs => Done (foldl write buf msgs)
    | Panic => Panic
    end.
Proof.
  revert buf. induction errs as [|err rest IH]; intros buf; simpl; [done|].
  destruct (Error err) as [msg|]; [|done].
  rewrite IH. by destruct (messages rest).
Qed.

Lemma Error_MultiErrors (errs : list error) :
  Error (MultiErrors errs)
  = match messages errs with
    | Done msgs => Done (joined msgs)
    | Panic => Panic
    end.
Proof. simpl. apply Error_loop. Qed.

(** C2, as the code has it: [NewErrors] returns nil when every entry is nil
    (an empty collection included), the one present error itself when
    exactly one entry is not nil, and otherwise a [MultiErrors] that holds
    the present errors in their order and whose message is their messages
    in order, with [", "] written before each message that finds the text
    so far not empty. *)
Theorem NewErrors_aggregates (inErrors : list error) :
  (Forall (fun err => err = nil) inErrors → NewErrors inErrors = nil) ∧
  (∀ err, present inErrors = [err] → NewErrors inErrors = err ∧ err ≠ nil) ∧
  (2 ≤ length (present inErrors) →
     NewErrors inErrors = MultiErrors (present inErrors) ∧
     ∀ msgs, messages (present inErrors) = Done msgs →
             Error (NewErrors inErrors) = Done (joined msgs)).
Proof.
  unfold NewErrors. rewrite collect_present.
  split; [|split].
  - intros Hnil. by rewrite present_nil.
  - intros err Hone. rewrite Hone. split; [done|].
    pose proof (present_notNil inErrors) as Hp. rewrite Hone in Hp.
    by inversion Hp.
  - intros Hlen.
    destruct (present inErrors) as [|e1 [|e2 rest]] eqn:Hp;
      simpl in Hlen; [lia|lia|].
    split; [done|].
    intros msgs Hmsgs. rewrite Error_MultiErrors. by rewrite Hmsgs.
Qed.

(** [NewErrors_aggregates] on three errors around nil entries. *)
Lemma NewErrors_aggregates_witness :
  NewErrors [nil; nil] = nil ∧
  NewErrors [nil; Errorf "boom"; nil] = Errorf "boom" ∧
  Error (NewErrors [Errorf "a"; nil; Errorf ""; Errorf "b"])
  = Done "a, , b".
Proof.
  split; [|split].
  - apply (proj1 (NewErrors_aggregates [nil; nil])).
    repeat constructor.
  - apply (proj1 (proj2 (NewErrors_aggregates [nil; Errorf "boom"; nil]))).
    reflexivity.
  - refine (proj2 (proj2 (proj2 (NewErrors_aggregates
                                   [Errorf "a"; nil; Errorf ""; Errorf "b"]))
                          _) ["a"; ""; "b"] _).
    + simpl. lia.
    + reflexivity.
Defined.

(** C2, as the specification states it, fails: the message of the composite
    is not the plain concatenation of the messages. *)
Lemma NewErrors_message_is_not_concatenation :
  Error (NewErrors [Errorf "a"; Errorf "b"])
  ≠ Done (concatenation ["a"; "b"]).
Proof. vm_compute. discriminate. Qed.

End ErrorsFacts.

(** ** The registry *)

Section RegistryFacts.

Context {Payload Mapper : Type}.
Variables GuessPluralName Capitalize : string -> string.
Variable EqualFold : string -> string -> bool.
Variable Sprint : Schema Payload -> string.
Variable merrNewErrors : list error -> error.
Variable assignMappers :
  Schema Payload -> M Payload Mapper (Schema Payload * error).

Local Abbreviation defaults := (defaults GuessPluralName Capitalize).
Local Abbreviation normalised := (normalised GuessPluralName Capitalize).
Local Abbreviation idNotSet := (idNotSet Sprint).
Local Abbreviation setupDefaults :=
  (setupDefaults GuessPluralName Capitalize Sprint assignMappers).
Local Abbreviation doAddSchema :=
  (doAddSchema GuessPluralName Capitalize Sprint assignMappers).
Local Abbreviation AddSchema :=
  (AddSchema GuessPluralName Capitalize Sprint assignMappers).
Local Abbreviation MustAddSchema :=
  (MustAddSchema GuessPluralName Capitalize Sprint assignMappers).
Local Abbreviation addAll :=
  (addAll GuessPluralName Capitalize Sprint assignMappers).
Local Abbreviation attempts :=
  (attempts GuessPluralName Capitalize Sprint assignMappers).
Local Abbreviation AddSchemas :=
  (AddSchemas GuessPluralName Capitalize Sprint merrNewErrors assignMappers).
Local Abbreviation keepsIdentity := (keepsIdentity assignMappers).
Local Abbreviation keepsRecords := (keepsRecords assignMappers).
Local Abbreviation answers := (answers EqualFold).
Local Abbreviation scan := (scan (Mapper := Mapper) EqualFold).
Local Abbreviation doSchema := (doSchema (Payload := Payload) (Mapper := Mapper) EqualFold).
Local Abbreviation Schema_ := (Schema_ (Payload := Payload) (Mapper := Mapper) EqualFold).
Local Abbreviation firstAnswer := (firstAnswer EqualFold).
Local Abbreviation noAnswer := (noAnswer EqualFold).
Local Abbreviation World := (World Payload Mapper).

Implicit Types (c held : Schema Payload) (w : World) (err : error).

(** *** Normalisation *)

Lemma notNil_false err : notNil err = false → err = nil.
Proof. by destruct err. Qed.

Lemma defaults_normalised c : normalised c (defaults c).
Proof. unfold normalised, defaults. simpl. done. Qed.

Lemma setupDefaults_empty c w :
  ID c = "" → setupDefaults c w = Done ((with_Type "schema" c, idNotSet c), w).
Proof.
  intros Hid. unfold setupDefaults. simpl. rewrite Hid. reflexivity.
Qed.

Lemma setupDefaults_nonempty c w :
  ID c ≠ "" →
  setupDefaults c w =
    match assignMappers (defaults c) w with
    | Done ((c', err), w') => Done ((c', err), w')
    | Panic => Panic
    end.
Proof.
  intros Hid. destruct c as [id plural code codePlural type rest].
  simpl in Hid. unfold setupDefaults, defaults, bind. simpl.
  destruct (String.eqb_spec id "") as [|_]; [done|].
  unfold with_Type; simpl.
  destruct (String.eqb plural ""); unfold with_PluralName; simpl;
    (destruct (String.eqb code ""); unfold with_CodeName; simpl;
     (destruct (String.eqb codePlural ""); unfold with_CodeNamePlural; simpl;
      (destruct (assignMappers _ w) as [[[c' err] w']|]; [|done];
       destruct (notNil err) eqn:Hnil; [done|];
       apply notNil_false in Hnil; by subst err))).
Qed.

(** *** Registration *)

Lemma doAddSchema_after_defaults c w c' err w1 :
  setupDefaults c w = Done ((c', err), w1) →
  doAddSchema c w =
    if notNil err then Done (err, w1)
    else
      match schemasByID (reg w1) !! ID c' with
      | Some existing =>
          match heap w1 !! existing with
          | Some _ =>
              Done (nil, mkWorld (<[existing := c']> (heap w1)) (reg w1))
          | None => Panic
          end
      | None =>
          Done (nil,
                mkWorld (heap w1 ++ [c'])
                  (with_schemas (schemas (reg w1) ++ [length (heap w1)])
                     (with_schemasByID
                        (<[ID c' := length (heap w1)]> (schemasByID (reg w1)))
                        (reg w1))))
      end.
Proof.
  intros Hsetup. unfold doAddSchema, bind. rewrite Hsetup.
  destruct (notNil err); [done|].
  unfold getReg. simpl.
  destruct (schemasByID (reg w1) !! ID c') as [existing|]; [|done].
  unfold store. by destruct (heap w1 !! existing).
Qed.

Lemma doAddSchema_panics c w :
  setupDefaults c w = Panic → doAddSchema c w = Panic.
Proof. intros Hsetup. unfold doAddSchema, bind. by rewrite Hsetup. Qed.

Lemma doAddSchema_empty c w :
  ID c = "" → doAddSchema c w = Done (idNotSet c, w).
Proof.
  intros Hid.
  by rewrite (doAddSchema_after_defaults c w _ _ _ (setupDefaults_empty c w Hid)).
Qed.

(** C6: a schema whose ID is empty is refused with the error of
    [setupDefaults], and the call leaves the heap and the whole registry
    ([schemasByID], [schemas], the mapper chains) as they were. *)
Theorem AddSchema_rejects_empty_ID c w :
  ID c = "" →
  AddSchema c w = Done (idNotSet c, w) ∧ idNotSet c ≠ nil.
Proof.
  intros Hid. split; [|done].
  unfold Registry.AddSchema. by apply doAddSchema_empty.
Qed.

(** What a successful registration leaves under the ID of the schema. *)
Lemma AddSchema_stores c w w' :
  ID c ≠ "" →
  AddSchema c w = Done (nil, w') →
  ∃ c' w1 p,
    assignMappers (defaults c) w = Done ((c', nil), w1) ∧
    schemasByID (reg w') !! ID c' = Some p ∧
    heap w' !! p = Some c'.
Proof.
  intros Hid Hadd. unfold Registry.AddSchema in Hadd.
  pose proof (setupDefaults_nonempty c w Hid) as Hsetup.
  destruct (assignMappers (defaults c) w) as [[[c' err] w1]|] eqn:Hassign.
  - rewrite (doAddSchema_after_defaults c w _ _ _ Hsetup) in Hadd.
    destruct (notNil err) eqn:Hnil.
    { injection Hadd as -> _. done. }
    apply notNil_false in Hnil. subst err.
    exists c', w1.
    destruct (schemasByID (reg w1) !! ID c') as [existing|] eqn:Hlook.
    + destruct (heap w1 !! existing) as [old|] eqn:Hold; [|done].
      injection Hadd as <-. exists existing. simpl.
      split; [done|]. split; [done|].
      apply list_lookup_insert_eq. by eapply lookup_lt_Some.
    + injection Hadd as <-. exists (length (heap w1)). simpl.
      split; [done|]. split; [apply lookup_insert_eq|].
      by rewrite lookup_app_r, Nat.sub_diag.
  - by rewrite (doAddSchema_panics c w Hsetup) in Hadd.
Qed.

Lemma keepsIdentity_normalised c c' w w1 err :
  keepsIdentity →
  assignMappers (defaults c) w = Done ((c', err), w1) →
  normalised c c' ∧ ID c' = ID c.
Proof.
  intros Hkeep Hassign.
  destruct (Hkeep _ _ _ _ _ Hassign) as (Hid & Hpl & Hcn & Hcnp & Hty).
  destruct (defaults_normalised c) as (Nty & Nid & Npl & Ncn & Ncnp).
  unfold Registry.normalised.
  rewrite Hid, Hpl, Hcn, Hcnp, Hty. by repeat split.
Qed.

(** C3: when [AddSchema] accepts a schema whose ID is not empty, the record
    it leaves under that ID has [Type] ["schema"], the ID as supplied, and
    each of [PluralName], [CodeName] and [CodeNamePlural] as supplied when
    it was not empty and otherwise [GuessPluralName ID], [Capitalize ID]
    and [GuessPluralName] of the resulting [CodeName]; [assignMappers] is
    taken to leave these fields alone. *)
Theorem AddSchema_normalises c w w' :
  keepsIdentity →
  ID c ≠ "" →
  AddSchema c w = Done (nil, w') →
  ∃ p stored,
    schemasByID (reg w') !! ID c = Some p ∧
    heap w' !! p = Some stored ∧
    normalised c stored.
Proof.
  intros Hkeep Hid Hadd.
  destruct (AddSchema_stores c w w' Hid Hadd) as (c' & w1 & p & Hassign & Hp & Hc').
  destruct (keepsIdentity_normalised c c' w w1 nil Hkeep Hassign) as [Hnorm Hsame].
  exists p, c'. by rewrite <- Hsame.
Qed.

(** The ways in which a call of [AddSchema] returns. *)
Lemma AddSchema_inv c w err w' :
  AddSchema c w = Done (err, w') →
  (ID c = "" ∧ err = idNotSet c ∧ w' = w) ∨
  (ID c ≠ "" ∧
   ∃ c' err1 w1,
     assignMappers (defaults c) w = Done ((c', err1), w1) ∧
     ((notNil err1 = true ∧ err = err1 ∧ w' = w1) ∨
      (err1 = nil ∧ err = nil ∧
       ∃ existing old,
         schemasByID (reg w1) !! ID c' = Some existing ∧
         heap w1 !! existing = Some old ∧
         w' = mkWorld (<[existing := c']> (heap w1)) (reg w1)) ∨
      (err1 = nil ∧ err = nil ∧
       schemasByID (reg w1) !! ID c' = None ∧
       w' = mkWorld (heap w1 ++ [c'])
              (with_schemas (schemas (reg w1) ++ [length (heap w1)])
                 (with_schemasByID
                    (<[ID c' := length (heap w1)]> (schemasByID (reg w1)))
                    (reg w1)))))).
Proof.
  intros Hadd. unfold Registry.AddSchema in Hadd.
  destruct (String.eqb_spec (ID c) "") as [Hid|Hid].
  - left.
    rewrite (doAddSchema_after_defaults c w _ _ _ (setupDefaults_empty c w Hid))
      in Hadd.
    simpl in Hadd. injection Hadd as <- <-. done.
  - right. split; [done|].
    pose proof (setupDefaults_nonempty c w Hid) as Hsetup.
    destruct (assignMappers (defaults c) w) as [[[c' err1] w1]|] eqn:Hassign.
    + exists c', err1, w1. split; [done|].
      rewrite (doAddSchema_after_defaults c w _ _ _ Hsetup) in Hadd.
      destruct (notNil err1) eqn:Hnil.
      { injection Hadd as <- <-. by left. }
      apply notNil_false in Hnil. subst err1. right.
      destruct (schemasByID (reg w1) !! ID c') as [existing|] eqn:Hlook.
      * destruct (heap w1 !! existing) as [old|] eqn:Hold; [|done].
        injection Hadd as <- <-. left. eauto 10.
      * injection Hadd as <- <-. right. eauto 10.
    + by rewrite (doAddSchema_panics c w Hsetup) in Hadd.
Qed.

(** Registration never takes a key out of [schemasByID]. *)
Lemma AddSchema_keeps_keys c w err w' k :
  keepsRecords →
  AddSchema c w = Done (err, w') →
  is_Some (schemasByID (reg w) !! k) →
  is_Some (schemasByID (reg w') !! k).
Proof.
  intros Hrec Hadd Hk.
  destruct (AddSchema_inv c w err w' Hadd)
    as [(_ & _ & ->)|(_ & c' & err1 & w1 & Hassign & Hcases)]; [done|].
  destruct (Hrec _ _ _ _ _ Hassign) as (Hheap & Hbyid & Hlist).
  destruct Hcases as [(_ & _ & ->)|[(_ & _ & e & old & _ & _ & ->)|(_ & _ & _ & ->)]];
    simpl; rewrite ?Hbyid; [done|done|].
  destruct (decide (ID c' = k)) as [->|Hne].
  - rewrite lookup_insert_eq. eauto.
  - by rewrite lookup_insert_ne.
Qed.

(** C5: registering a schema under an ID that [schemasByID] already holds
    writes the normalised value into the record stored there, the one a
    lookup returned before and returns after, and leaves [schemasByID] and
    the ordered sequence as they were; registering under a fresh ID
    allocates one record and appends it to both. [assignMappers] is taken
    to succeed on the schema and to leave records and identity alone. *)
Theorem AddSchema_replaces_or_appends c w c' w1 :
  keepsIdentity → keepsRecords →
  ID c ≠ "" →
  assignMappers (defaults c) w = Done ((c', nil), w1) →
  normalised c c' ∧
  (∀ existing,
     schemasByID (reg w) !! ID c = Some existing →
     is_Some (heap w !! existing) →
     ∃ w',
       AddSchema c w = Done (nil, w') ∧
       heap w' = <[existing := c']> (heap w) ∧
       schemasByID (reg w') = schemasByID (reg w) ∧
       Schemas_ (reg w') = Schemas_ (reg w) ∧
       Schema_ (ID c) w = Done (Some existing, w) ∧
       Schema_ (ID c) w' = Done (Some existing, w') ∧
       load existing w' = Done (c', w')) ∧
  (schemasByID (reg w) !! ID c = None →
     ∃ w',
       AddSchema c w = Done (nil, w') ∧
       heap w' = heap w ++ [c'] ∧
       schemasByID (reg w')
       = <[ID c := length (heap w)]> (schemasByID (reg w)) ∧
       Schemas_ (reg w') = Schemas_ (reg w) ++ [length (heap w)]).
Proof.
  intros Hkeep Hrec Hid Hassign.
  destruct (keepsIdentity_normalised c c' w w1 nil Hkeep Hassign)
    as [Hnorm Hsame].
  destruct (Hrec _ _ _ _ _ Hassign) as (Hheap & Hbyid & Hlist).
  pose proof (setupDefaults_nonempty c w Hid) as Hsetup.
  rewrite Hassign in Hsetup.
  pose proof (doAddSchema_after_defaults c w _ _ _ Hsetup) as Hadd.
  simpl in Hadd. rewrite Hbyid, Hsame, Hheap, Hlist in Hadd.
  split; [done|]. split.
  - intros existing Hlook [old Hold]. rewrite Hlook, Hold in Hadd.
    eexists. split; [exact Hadd|]. simpl.
    split; [done|]. split; [done|]. split; [done|].
    assert (Hnew : <[existing := c']> (heap w) !! existing = Some c').
    { apply list_lookup_insert_eq. by eapply lookup_lt_Some. }
    unfold Registry.Schema_, Registry.doSchema, bind, getReg, load. simpl.
    rewrite Hbyid, Hlook, Hnew. done.
  - intros Hfresh. rewrite Hfresh in Hadd.
    eexists. split; [exact Hadd|]. by unfold Schemas_.
Qed.

(** C10: [AddSchema] and [MustAddSchema] work on their own copy of the
    schema they are passed. A record that holds a value before the call,
    the caller's own variable among them, holds the same value after it,
    unless it is the record the registry keeps under the ID of the schema;
    [assignMappers] is taken to leave records and identity alone. *)
Theorem AddSchema_leaves_other_records c w q held :
  keepsIdentity → keepsRecords →
  heap w !! q = Some held →
  schemasByID (reg w) !! ID c ≠ Some q →
  (∀ err w', AddSchema c w = Done (err, w') → heap w' !! q = Some held) ∧
  (∀ w', MustAddSchema c w = Done (tt, w') → heap w' !! q = Some held).
Proof.
  intros Hkeep Hrec Hq Hother.
  assert (Hadd : ∀ err w',
             AddSchema c w = Done (err, w') → heap w' !! q = Some held).
  { intros err w' Hadd.
    destruct (AddSchema_inv c w err w' Hadd)
      as [(_ & _ & ->)|(_ & c' & err1 & w1 & Hassign & Hcases)]; [done|].
    destruct (Hrec _ _ _ _ _ Hassign) as (Hheap & Hbyid & Hlist).
    destruct (Hkeep _ _ _ _ _ Hassign) as (Hid & _).
    simpl in Hid.
    destruct Hcases
      as [(_ & _ & ->)|[(_ & _ & e & old & He & _ & ->)|(_ & _ & _ & ->)]];
      simpl; rewrite Hheap.
    - done.
    - rewrite list_lookup_insert_ne; [done|].
      intros ->. apply Hother. by rewrite <- Hbyid, <- Hid.
    - rewrite lookup_app_l; [done|]. by eapply lookup_lt_Some. }
  split; [exact Hadd|].
  intros w' Hmust. unfold Registry.MustAddSchema, bind in Hmust.
  destruct (AddSchema c w) as [[err w1]|] eqn:Hcall; [|done].
  destruct (notNil err); [done|].
  injection Hmust as <-. by eapply Hadd.
Qed.

(** *** Merging a registry *)

Lemma attempts_cons p l w :
  attempts (p :: l) w =
    match heap w !! p with
    | Some v =>
        match AddSchema v w with
        | Done (err, w1) =>
            match attempts l w1 with
            | Done (rest, w') => Done ((v, err) :: rest, w')
            | Panic => Panic
            end
        | Panic => Panic
        end
    | None => Panic
    end.
Proof.
  simpl. unfold bind, load, ret.
  destruct (heap w !! p) as [v|]; [|done].
  destruct (Registry.AddSchema _ _ _ _ v w) as [[err w1]|]; [|done].
  by destruct (Registry.attempts _ _ _ _ l w1) as [[rest w']|].
Qed.

(** The loop of [AddSchemas] keeps the errors of [attempts] that are not
    nil, in their order. *)
Lemma addAll_attempts l errs w :
  addAll l errs w =
    match attempts l w with
    | Done (outs, w') => Done (errs ++ present (outs.*2), w')
    | Panic => Panic
    end.
Proof.
  revert errs w. induction l as [|p l IH]; intros errs w.
  - simpl. unfold ret. by rewrite app_nil_r.
  - rewrite attempts_cons. simpl. unfold bind, load.
    destruct (heap w !! p) as [v|]; [|done].
    destruct (Registry.AddSchema _ _ _ _ v w) as [[err w1]|]; [|done].
    rewrite IH.
    destruct (attempts l w1) as [[rest w']|]; [|done].
    simpl. destruct (notNil err); [|done].
    by rewrite <- app_assoc.
Qed.

Lemma attempts_keeps_keys l w outs w' k :
  keepsRecords →
  attempts l w = Done (outs, w') →
  is_Some (schemasByID (reg w) !! k) →
  is_Some (schemasByID (reg w') !! k).
Proof.
  intros Hrec. revert w outs. induction l as [|p l IH]; intros w outs Hrun Hk.
  - simpl in Hrun. injection Hrun as _ <-. done.
  - rewrite attempts_cons in Hrun.
    destruct (heap w !! p) as [v|]; [|done].
    destruct (AddSchema v w) as [[err w1]|] eqn:Hadd; [|done].
    destruct (attempts l w1) as [[rest w2]|] eqn:Hrest; [|done].
    injection Hrun as _ <-.
    eapply IH; [exact Hrest|]. by eapply AddSchema_keeps_keys.
Qed.

(** C7: [AddSchemas] passes every schema of the snapshot to [AddSchema],
    whatever the earlier calls returned, and returns the aggregate of the
    errors that are not nil, in order; a schema without ID contributes its
    validation error, and every schema whose call returned nil has its ID
    in [schemasByID] at the end. [assignMappers] is taken to leave records
    and identity alone. *)
Theorem AddSchemas_attempts_every_schema (source : Schemas Mapper) w :
  keepsIdentity → keepsRecords →
  AddSchemas source w =
    match attempts (Schemas_ source) w with
    | Done (outs, w') => Done (merrNewErrors (present (outs.*2)), w')
    | Panic => Panic
    end ∧
  ∀ outs w',
    attempts (Schemas_ source) w = Done (outs, w') →
    length outs = length (Schemas_ source) ∧
    (∀ v err, (v, err) ∈ outs → ID v = "" → err = idNotSet v) ∧
    (∀ v, (v, nil) ∈ outs → is_Some (schemasByID (reg w') !! ID v)).
Proof.
  intros Hkeep Hrec. split.
  - unfold Registry.AddSchemas, bind. rewrite addAll_attempts.
    by destruct (attempts (Schemas_ source) w) as [[outs w']|].
  - generalize (Schemas_ source) as l. intros l. revert w.
    induction l as [|p l IH]; intros w outs w' Hrun.
    { simpl in Hrun. injection Hrun as <- <-.
      split; [done|].
      split; [intros v err Hin|intros v Hin]; by apply elem_of_nil in Hin. }
    rewrite attempts_cons in Hrun.
    destruct (heap w !! p) as [v|]; [|done].
    destruct (AddSchema v w) as [[err w1]|] eqn:Hadd; [|done].
    destruct (attempts l w1) as [[rest w2]|] eqn:Hrest; [|done].
    injection Hrun as <- <-.
    destruct (IH w1 rest w2 Hrest) as (Hlen & Hempty & Hreg).
    split; [simpl; by rewrite Hlen|]. split.
    + intros v' err' Hin Hid. apply elem_of_cons in Hin as [Heq|Hin].
      * injection Heq as Hv He. subst v' err'.
        unfold Registry.AddSchema in Hadd.
        rewrite (doAddSchema_empty v w Hid) in Hadd. by injection Hadd as <- _.
      * by apply Hempty.
    + intros v' Hin. apply elem_of_cons in Hin as [Heq|Hin].
      * injection Heq as Hv He. subst v' err.
        destruct (String.eqb_spec (ID v) "") as [Hid|Hid].
        { unfold Registry.AddSchema in Hadd.
          rewrite (doAddSchema_empty v w Hid) in Hadd.
          by injection Hadd as Hadd _. }
        destruct (AddSchema_stores v w w1 Hid Hadd)
          as (c' & w0 & q & Hassign & Hq & _).
        destruct (keepsIdentity_normalised v c' w w0 nil Hkeep Hassign)
          as [_ Hsame].
        eapply attempts_keeps_keys; [done|exact Hrest|].
        rewrite <- Hsame. eauto.
      * by apply Hreg.
Qed.

(** *** Lookup *)

Lemma scan_cons name check l w :
  scan name (check :: l) w =
    match heap w !! check with
    | Some c => if answers name c then Done (Some check, w) else scan name l w
    | None => Panic
    end.
Proof.
  simpl. unfold bind, load.
  destruct (heap w !! check) as [c|]; [|done].
  unfold Registry.answers. by destruct (_ || _).
Qed.

Lemma scan_world name l w r w' : scan name l w = Done (r, w') → w' = w.
Proof.
  induction l as [|check l IH]; intros Hscan.
  - simpl in Hscan. by injection Hscan as _ <-.
  - rewrite scan_cons in Hscan.
    destruct (heap w !! check) as [c|]; [|done].
    destruct (answers name c); [|auto].
    by injection Hscan as _ <-.
Qed.

Lemma scan_Some name l w p :
  scan name l w = Done (Some p, w) ↔ firstAnswer name (heap w) l p.
Proof.
  induction l as [|check l IH].
  - split; [done|]. by intros (i & c & Hi & _).
  - rewrite scan_cons. split.
    + intros Hscan. destruct (heap w !! check) as [c|] eqn:Hc; [|done].
      destruct (answers name c) eqn:Hans.
      * injection Hscan as <-. exists 0, c. repeat split; [done..|].
        intros j q Hj. lia.
      * apply IH in Hscan as (i & c0 & Hi & Hc0 & Hans0 & Hbefore).
        exists (S i), c0. repeat split; [done..|].
        intros [|j] q Hj Hq.
        -- injection Hq as <-. eauto.
        -- apply (Hbefore j q); [lia|done].
    + intros ([|i] & c & Hi & Hc & Hans & Hbefore).
      * injection Hi as ->. by rewrite Hc, Hans.
      * destruct (Hbefore 0 check) as (c' & Hc' & Hans'); [lia|done|].
        rewrite Hc', Hans'. apply IH. exists i, c. repeat split; [done..|].
        intros j q Hj Hq. apply (Hbefore (S j) q); [lia|done].
Qed.

Lemma scan_None name l w :
  scan name l w = Done (None, w) ↔ noAnswer name (heap w) l.
Proof.
  induction l as [|check l IH].
  - split; [|done]. intros _ q Hq. by apply elem_of_nil in Hq.
  - rewrite scan_cons. split.
    + intros Hscan q Hq. destruct (heap w !! check) as [c|] eqn:Hc; [|done].
      destruct (answers name c) eqn:Hans; [done|].
      apply elem_of_cons in Hq as [->|Hq]; [eauto|].
      by apply IH.
    + intros Hnone. destruct (Hnone check) as (c' & -> & ->); [left|].
      apply IH. intros q Hq. apply Hnone. by right.
Qed.

(** C4: a lookup returns the entry that [schemasByID] holds at the literal
    name whenever there is one, whatever the ordered sequence holds; only
    when there is none does it return the first record of the ordered
    sequence whose ID or PluralName [EqualFold]s to the name, and nil when
    no record does. The lookup writes nothing. *)
Theorem doSchema_exact_then_scan name lock w :
  (∀ p, schemasByID (reg w) !! name = Some p →
        doSchema name lock w = Done (Some p, w)) ∧
  (schemasByID (reg w) !! name = None →
     (∀ p, doSchema name lock w = Done (Some p, w)
           ↔ firstAnswer name (heap w) (Schemas_ (reg w)) p) ∧
     (doSchema name lock w = Done (None, w)
      ↔ noAnswer name (heap w) (Schemas_ (reg w)))) ∧
  (∀ r w', doSchema name lock w = Done (r, w') → w' = w).
Proof.
  unfold Registry.doSchema, bind, getReg. simpl.
  split; [|split].
  - intros p ->. done.
  - intros ->. split; [intros p; apply scan_Some|apply scan_None].
  - intros r w'. destruct (schemasByID (reg w) !! name) as [p|].
    + intros Hret. by injection Hret as _ <-.
    + apply scan_world.
Qed.

(** *** Removal *)

(** C8: [RemoveSchema] deletes the key [schema.ID] from [schemasByID] and
    writes nothing else: the ordered sequence, the mapper chains, the other
    fields of the registry and every record are as before, and when the key
    is absent the state after the call is the state before it. *)
Theorem RemoveSchema_deletes_only_the_key c w :
  ∃ w',
    RemoveSchema c w = Done (tt, w') ∧
    schemasByID (reg w') = delete (ID c) (schemasByID (reg w)) ∧
    schemasByID (reg w') !! ID c = None ∧
    (∀ k, k ≠ ID c → schemasByID (reg w') !! k = schemasByID (reg w) !! k) ∧
    Schemas_ (reg w') = Schemas_ (reg w) ∧
    mappers (reg w') = mappers (reg w) ∧
    fieldMappers (reg w') = fieldMappers (reg w) ∧
    DefaultMapper (reg w') = DefaultMapper (reg w) ∧
    DefaultPostMapper (reg w') = DefaultPostMapper (reg w) ∧
    heap w' = heap w ∧
    (schemasByID (reg w) !! ID c = None → w' = w).
Proof.
  eexists. split; [reflexivity|]. simpl.
  split; [done|]. split; [apply lookup_delete_eq|].
  split; [intros k Hk; by apply lookup_delete_ne|].
  repeat (split; [done|]).
  intros Habsent. destruct w as [h [byID ms fms dm dpm l]]. simpl in *.
  unfold with_schemasByID. simpl. by rewrite delete_id.
Qed.

(** X1: a lookup that returned a record other than the one stored under
    the removed ID returns the same record after the removal. *)
Lemma RemoveSchema_keeps_other_lookups c w w' name p :
  RemoveSchema c w = Done (tt, w') →
  schemasByID (reg w) !! ID c ≠ Some p →
  Schema_ name w = Done (Some p, w) →
  Schema_ name w' = Done (Some p, w').
Proof.
  intros Hrm Hother Hfound. injection Hrm as <-.
  unfold Registry.Schema_, Registry.doSchema, bind, getReg in *.
  simpl in *.
  destruct (schemasByID (reg w) !! name) as [q|] eqn:Hname.
  - injection Hfound as ->.
    assert (name ≠ ID c) by (intros ->; congruence).
    by rewrite lookup_delete_ne, Hname.
  - assert (Hgone : delete (ID c) (schemasByID (reg w)) !! name = None).
    { destruct (decide (ID c = name)) as [->|Hne].
      - apply lookup_delete_eq.
      - by rewrite lookup_delete_ne. }
    rewrite Hgone.
    apply scan_Some in Hfound. by apply scan_Some.
Qed.

(** X2: a record that is still in the ordered sequence still answers to
    its own ID once that ID has been removed from [schemasByID]. *)
Lemma RemoveSchema_leaves_the_record_in_reach c w w' p stored :
  RemoveSchema c w = Done (tt, w') →
  EqualFold (ID c) (ID c) = true →
  p ∈ Schemas_ (reg w) →
  heap w !! p = Some stored →
  ID stored = ID c →
  Schema_ (ID c) w' ≠ Done (None, w').
Proof.
  intros Hrm Hrefl Hin Hp Hid Hnone. injection Hrm as <-.
  unfold Registry.Schema_, Registry.doSchema, bind, getReg in Hnone.
  simpl in Hnone. rewrite lookup_delete_eq in Hnone.
  apply scan_None in Hnone. simpl in Hnone.
  destruct (Hnone p Hin) as (c' & Hc' & Hans).
  rewrite Hp in Hc'. injection Hc' as <-.
  unfold Registry.answers in Hans. rewrite Hid, Hrefl in Hans. done.
Qed.

(** *** Mapper chains *)

Lemma AddMapper_mapper schemaID (m : Mapper) w :
  ∃ w',
    AddMapper (Payload := Payload) schemaID m w = Done (tt, w') ∧
    heap w' = heap w ∧
    schemasByID (reg w') = schemasByID (reg w) ∧
    Schemas_ (reg w') = Schemas_ (reg w) ∧
    ∀ k, mapper (reg w') k =
         mapper (reg w) k ++ (if decide (schemaID = k) then [m] else []).
Proof.
  eexists. split; [reflexivity|]. simpl. repeat (split; [done|]).
  intros k. unfold mapper. simpl. case_decide as Hk.
  - subst k. by rewrite lookup_insert_eq.
  - rewrite lookup_insert_ne by done. by rewrite app_nil_r.
Qed.

(** C9: after any sequence of [AddMapper] calls the chain of a schema ID is
    the chain it had before followed by the mappers the calls added for
    that ID, in the order of the calls; and the chain of an ID that has no
    entry in the store, as every ID of a new registry, is the empty
    sequence. *)
Theorem AddMapper_appends_in_order (calls : list (string * Mapper)) w :
  (∃ w',
     addMappers (Payload := Payload) calls w = Done (tt, w') ∧
     ∀ schemaID,
       mapper (reg w') schemaID =
       mapper (reg w) schemaID
         ++ (filter (fun call => call.1 = schemaID) calls).*2) ∧
  (∀ schemaID, mappers (reg w) !! schemaID = None →
               mapper (reg w) schemaID = []) ∧
  (∀ schemaID, mapper (emptySchemas Mapper) schemaID = []).
Proof.
  split; [|split].
  - revert w. induction calls as [|[id m] calls IH]; intros w.
    + exists w. split; [done|]. intros schemaID. by rewrite app_nil_r.
    + destruct (AddMapper_mapper id m w) as (w1 & Hcall & _ & _ & _ & Hchain).
      destruct (IH w1) as (w' & Hrest & Hchains).
      exists w'. split.
      * simpl. unfold bind. by rewrite Hcall.
      * intros schemaID. rewrite Hchains, Hchain, <- app_assoc.
        f_equal. rewrite filter_cons. simpl.
        by case_decide.
  - intros schemaID Hnone. unfold mapper. by rewrite Hnone.
  - intros schemaID. unfold mapper. simpl. by rewrite lookup_empty.
Qed.

End RegistryFacts.

(** ** The mapper assignment modelled from the specification *)

Section AssignDefaultMappers.

Context {Payload Mapper : Type}.

Lemma assignDefaultMappers_inv (c c' : Schema Payload) err
  (w w' : World Payload Mapper) :
  assignDefaultMappers c w = Done ((c', err), w') →
  c' = c ∧ err = nil ∧ heap w' = heap w ∧
  schemasByID (reg w') = schemasByID (reg w) ∧
  schemas (reg w') = schemas (reg w).
Proof.
  unfold assignDefaultMappers, bind, getReg, modifyReg, ret. simpl.
  destruct (DefaultMapper (reg w)), (DefaultPostMapper (reg w)); simpl;
    intros Hret; injection Hret as <- <- <-; done.
Qed.

Lemma assignDefaultMappers_keepsIdentity :
  keepsIdentity (@assignDefaultMappers Payload Mapper).
Proof.
  intros c w c' err w' Hret.
  apply assignDefaultMappers_inv in Hret as (-> & _). done.
Qed.

Lemma assignDefaultMappers_keepsRecords :
  keepsRecords (@assignDefaultMappers Payload Mapper).
Proof.
  intros c w c' err w' Hret.
  apply assignDefaultMappers_inv in Hret as (_ & _ & Hrest). done.
Qed.

End AssignDefaultMappers.

(** ** The scenarios of the specification *)

Module SampleFacts.

Import Sample.

(** Testable property 4: lookups by alias are case-insensitive. *)
Example Schema_case_insensitive :
  let w := after (AddSchema (schema "pod" "pods")) start in
  result (Schema_ "POD") w = Some (Some 0) ∧
  result (Schema_ "Pods") w = Some (Some 0) ∧
  result (Schema_ "node") w = Some None.
Proof. vm_compute. done. Qed.

(** Testable property 3: the entry stored under the literal name wins over
    a record whose plural answers to it, even one that comes first. *)
Example Schema_exact_wins :
  let w := after (AddSchema (schema "pod" ""))
             (after (AddSchema (schema "x" "pod")) start) in
  result (Schema_ "pod") w = Some (Some 1) ∧
  result (Schema_ "POD") w = Some (Some 0).
Proof. vm_compute. done. Qed.

(** C1 fails on the code: once ["x"] is registered and then removed,
    [schemasByID] no longer holds it, yet [Schema("x")] still returns the
    record, found by the scan of the ordered sequence that [RemoveSchema]
    leaves as it was. *)
Theorem RemoveSchema_then_Schema_still_finds :
  let w1 := after (AddSchema (schema "x" "")) start in
  let w2 := after (RemoveSchema (schema "x" "")) w1 in
  result (Schema_ "x") w1 = Some (Some 0) ∧
  schemasByID (reg w2) !! "x" = None ∧
  Schemas_ (reg w2) = [0] ∧
  result (Schema_ "x") w2 = Some (Some 0).
Proof. vm_compute. done. Qed.

(** [AddSchema_normalises] on testable property 1. *)
Lemma AddSchema_normalises_witness :
  ∃ p stored,
    schemasByID (reg (after (AddSchema (schema "widget" "")) start))
      !! "widget" = Some p ∧
    heap (after (AddSchema (schema "widget" "")) start) !! p = Some stored ∧
    normalised GuessPluralName Capitalize (schema "widget" "") stored.
Proof.
  apply (AddSchema_normalises GuessPluralName Capitalize Sprint assignMappers
           (schema "widget" "") start).
  - apply assignDefaultMappers_keepsIdentity.
  - discriminate.
  - vm_compute. reflexivity.
Defined.

Example widget_normalised :
  heap (after (AddSchema (schema "widget" "")) start)
  = [mkSchema "widget" "widgets" "Widget" "Widgets" "schema" tt].
Proof. vm_compute. reflexivity. Qed.

(** [AddSchema_rejects_empty_ID] on testable property 5. *)
Lemma AddSchema_rejects_empty_ID_witness :
  AddSchema (schema "" "pods") registered_x
  = Done (idNotSet Sprint (schema "" "pods"), registered_x) ∧
  idNotSet Sprint (schema "" "pods") ≠ nil.
Proof.
  apply (AddSchema_rejects_empty_ID GuessPluralName Capitalize Sprint
           assignMappers (schema "" "pods") registered_x).
  reflexivity.
Defined.

(** [AddSchema_replaces_or_appends] on testable property 2, and on a fresh
    ID. *)
Lemma AddSchema_replaces_or_appends_witness :
  (∃ w',
     AddSchema (schema "x" "exes") registered_x = Done (nil, w') ∧
     heap w' = [mkSchema "x" "exes" "X" "Xs" "schema" tt] ∧
     schemasByID (reg w') = schemasByID (reg registered_x) ∧
     Schemas_ (reg w') = [0] ∧
     result (Schema_ "x") registered_x = Some (Some 0) ∧
     result (Schema_ "x") w' = Some (Some 0)) ∧
  (∃ w',
     AddSchema (schema "y" "") registered_x = Done (nil, w') ∧
     schemasByID (reg w') !! "y" = Some 1 ∧
     Schemas_ (reg w') = [0; 1]).
Proof.
  split.
  - destruct (AddSchema_replaces_or_appends GuessPluralName Capitalize
                EqualFold Sprint assignMappers
                (schema "x" "exes") registered_x
                (defaults GuessPluralName Capitalize (schema "x" "exes"))
                registered_x)
      as (_ & Hreplace & _).
    + apply assignDefaultMappers_keepsIdentity.
    + apply assignDefaultMappers_keepsRecords.
    + discriminate.
    + vm_compute. reflexivity.
    + destruct (Hreplace 0) as (w' & Hadd & Hheap & HbyID & Hlist & Hbefore & Hafter & _).
      * vm_compute. reflexivity.
      * vm_compute. eauto.
      * exists w'. split; [exact Hadd|]. split; [rewrite Hheap; reflexivity|].
        split; [exact HbyID|]. split; [rewrite Hlist; reflexivity|].
        unfold result. split.
        -- change (Schema_ "x" registered_x)
             with (Registry.Schema_ EqualFold "x" registered_x).
           change "x" with (ID (schema "x" "exes")) at 1. by rewrite Hbefore.
        -- change (Schema_ "x" w')
             with (Registry.Schema_ EqualFold (ID (schema "x" "exes")) w').
           by rewrite Hafter.
  - destruct (AddSchema_replaces_or_appends GuessPluralName Capitalize
                EqualFold Sprint assignMappers
                (schema "y" "") registered_x
                (defaults GuessPluralName Capitalize (schema "y" ""))
                registered_x)
      as (_ & _ & Happend).
    + apply assignDefaultMappers_keepsIdentity.
    + apply assignDefaultMappers_keepsRecords.
    + discriminate.
    + vm_compute. reflexivity.
    + destruct Happend as (w' & Hadd & _ & HbyID & Hlist).
      * vm_compute. reflexivity.
      * exists w'. split; [exact Hadd|].
        split; [rewrite HbyID; apply lookup_insert_eq|].
        rewrite Hlist. reflexivity.
Defined.

(** [AddSchema_leaves_other_records] on a caller that passes the value of
    its own variable: the variable still holds the value as the caller
    wrote it, and the registry's record holds the normalised one. *)
Lemma AddSchema_leaves_other_records_witness :
  (∀ err w', AddSchema (schema "x" "") caller_holds_x = Done (err, w') →
             heap w' !! 0 = Some (schema "x" "")) ∧
  (∀ w', MustAddSchema (schema "x" "") caller_holds_x = Done (tt, w') →
         heap w' !! 0 = Some (schema "x" "")).
Proof.
  apply (AddSchema_leaves_other_records GuessPluralName Capitalize Sprint
           assignMappers (schema "x" "") caller_holds_x 0 (schema "x" "")).
  - apply assignDefaultMappers_keepsIdentity.
  - apply assignDefaultMappers_keepsRecords.
  - reflexivity.
  - vm_compute. discriminate.
Defined.

Example caller_and_registry_records :
  heap (after (AddSchema (schema "x" "")) caller_holds_x)
  = [schema "x" ""; mkSchema "x" "xs" "X" "Xs" "schema" tt].
Proof. vm_compute. reflexivity. Qed.

(** [AddSchemas_attempts_every_schema] on testable property 6: one schema
    without ID and two valid ones. *)
Lemma AddSchemas_attempts_every_schema_witness :
  ∃ w',
    AddSchemas batch three_records
    = Done (idNotSet Sprint (schema "" ""), w') ∧
    is_Some (schemasByID (reg w') !! "a") ∧
    is_Some (schemasByID (reg w') !! "b").
Proof.
  destruct (AddSchemas_attempts_every_schema GuessPluralName Capitalize
              Sprint NewErrors assignMappers batch three_records
              assignDefaultMappers_keepsIdentity
              assignDefaultMappers_keepsRecords)
    as [Hagg Hall].
  destruct (Registry.attempts GuessPluralName Capitalize Sprint assignMappers
              (Schemas_ batch) three_records) as [[outs w']|] eqn:Hrun;
    [|by vm_compute in Hrun].
  exists w'. split.
  - unfold AddSchemas. rewrite Hagg.
    vm_compute in Hrun. injection Hrun as <- <-. vm_compute. reflexivity.
  - destruct (Hall outs w' eq_refl) as (_ & _ & Hreg).
    vm_compute in Hrun. injection Hrun as Houts _.
    split.
    + apply (Hreg (schema "a" "")). rewrite <- Houts.
      apply list_elem_of_lookup. by exists 1.
    + apply (Hreg (schema "b" "")). rewrite <- Houts.
      apply list_elem_of_lookup. by exists 2.
Defined.

(** [RemoveSchema_keeps_other_lookups] on a registry of ["pod"] and ["x"]:
    once ["x"] is removed the alias ["Pods"] still resolves to the record
    of ["pod"]. *)
Lemma RemoveSchema_keeps_other_lookups_witness :
  let w := after (AddSchema (schema "x" ""))
             (after (AddSchema (schema "pod" "")) start) in
  Schema_ "Pods" (after (RemoveSchema (schema "x" "")) w)
  = Done (Some 0, after (RemoveSchema (schema "x" "")) w).
Proof.
  apply (RemoveSchema_keeps_other_lookups EqualFold (schema "x" "")
           (after (AddSchema (schema "x" ""))
              (after (AddSchema (schema "pod" "")) start))).
  - reflexivity.
  - vm_compute. discriminate.
  - vm_compute. reflexivity.
Defined.

End SampleFacts.

(** * Further facts *)

(** ** More on the error aggregator *)

Module ErrorsMore.

Import ErrorsFacts.

Lemma NewErrors_present (inErrors : list error) :
  NewErrors inErrors =
    match present inErrors with
    | [] => nil
    | [err] => err
    | errs => MultiErrors errs
    end.
Proof.
  unfold NewErrors. rewrite collect_present.
  by destruct (present inErrors) as [|e1 [|e2 rest]].
Qed.

Lemma present_elem (inErrors : list error) (err : error) :
  err ∈ present inErrors ↔ err ∈ inErrors ∧ err ≠ nil.
Proof.
  unfold present. rewrite !list_elem_of_In, filter_In, <- list_elem_of_In.
  split; intros [Hin Hnil]; (split; [done|]).
  - by destruct err.
  - by destruct err.
Qed.

Lemma present_nil_inv (inErrors : list error) :
  present inErrors = [] → Forall (fun err => err = nil) inErrors.
Proof.
  induction inErrors as [|err rest IH]; simpl; [constructor|].
  destruct err; simpl; [|done..]. intros Hrest. constructor; auto.
Qed.

(** X3: the aggregate is nil exactly when no entry is a present error. *)
Theorem NewErrors_nil_iff (inErrors : list error) :
  NewErrors inErrors = nil ↔ Forall (fun err => err = nil) inErrors.
Proof.
  split.
  - rewrite NewErrors_present. intros Hnil. apply present_nil_inv.
    pose proof (present_notNil inErrors) as Hp.
    destruct (present inErrors) as [|e1 [|e2 rest]]; [done| |done].
    subst e1. by inversion Hp.
  - intros Hnil. by rewrite NewErrors_present, present_nil.
Qed.

Lemma messages_Done (errs : list error) :
  Forall (fun err => Error err ≠ Panic) errs →
  ∃ msgs, messages errs = Done msgs.
Proof.
  induction 1 as [|err rest Herr _ [msgs IH]]; simpl; [eauto|].
  destruct (Error err) as [msg|]; [|done].
  rewrite IH. eauto.
Qed.

(** X4: [Error] can be called on every aggregate that is not nil, as long
    as it can be called on each present entry: a composite never holds a
    nil entry. *)
Theorem NewErrors_Error_returns (inErrors : list error) :
  (∀ err, err ∈ inErrors → err ≠ nil → Error err ≠ Panic) →
  NewErrors inErrors ≠ nil →
  ∃ msg, Error (NewErrors inErrors) = Done msg.
Proof.
  intros Hsafe. rewrite NewErrors_present.
  assert (Hp : Forall (fun err => Error err ≠ Panic) (present inErrors)).
  { apply Forall_forall. intros err Hin.
    apply present_elem in Hin as [Hin Hnil]. auto. }
  destruct (present inErrors) as [|e1 [|e2 rest]] eqn:Hpresent; [done|..].
  - intros _. inversion Hp as [|? ? He1 _]; subst.
    destruct (Error e1) as [msg|]; [eauto|done].
  - intros _. rewrite Error_MultiErrors.
    destruct (messages_Done _ Hp) as [msgs ->]. eauto.
Qed.

Lemma NewErrors_Error_returns_witness :
  ∃ msg,
    Error (NewErrors [nil; Errorf "a"; NewErrors [Errorf "b"; Errorf "c"]])
    = Done msg.
Proof.
  apply NewErrors_Error_returns.
  - intros err Hin Hnil.
    repeat (apply elem_of_cons in Hin as [->|Hin]; [by vm_compute|]).
    by apply elem_of_nil in Hin.
  - by vm_compute.
Defined.

Lemma messages_app (l1 l2 : list error) :
  messages (l1 ++ l2) =
    match messages l1, messages l2 with
    | Done m1, Done m2 => Done (m1 ++ m2)
    | _, _ => Panic
    end.
Proof.
  induction l1 as [|err l1 IH]; simpl.
  - by destruct (messages l2).
  - destruct (Error err) as [msg|]; [|done].
    rewrite IH. by destruct (messages l1), (messages l2).
Qed.

Lemma write_empty (msg : string) : write "" msg = msg.
Proof. reflexivity. Qed.

Lemma joined_nested (m1 m2 : list string) :
  joined (joined m1 :: m2) = joined (m1 ++ m2).
Proof. unfold joined. simpl. by rewrite write_empty, foldl_app. Qed.

(** X5: aggregating an aggregate together with further errors gives an
    error with the same message as aggregating all the errors at once,
    although the first keeps the inner composite as one entry. *)
Theorem NewErrors_nested_message (l1 l2 : list error) :
  Error (NewErrors (NewErrors l1 :: l2)) = Error (NewErrors (l1 ++ l2)).
Proof.
  rewrite (NewErrors_present (NewErrors l1 :: l2)),
    (NewErrors_present (l1 ++ l2)).
  unfold present at 2. rewrite List.filter_app. fold (present l1) (present l2).
  rewrite (NewErrors_present l1).
  pose proof (present_notNil l1) as Hp1.
  destruct (present l1) as [|e1 [|e2 r1]] eqn:H1.
  - reflexivity.
  - inversion Hp1 as [|? ? He1 _]; subst.
    simpl. by destruct e1.
  - change (present (MultiErrors (e1 :: e2 :: r1) :: l2))
      with (MultiErrors (e1 :: e2 :: r1) :: present l2).
    destruct (present l2) as [|e3 r2] eqn:H2.
    + by rewrite app_nil_r.
    + change ((e1 :: e2 :: r1) ++ e3 :: r2)
        with (e1 :: e2 :: (r1 ++ e3 :: r2)).
      rewrite !Error_MultiErrors.
      change (e1 :: e2 :: (r1 ++ e3 :: r2))
        with ((e1 :: e2 :: r1) ++ e3 :: r2).
      rewrite messages_app.
      change (messages (MultiErrors (e1 :: e2 :: r1) :: e3 :: r2))
        with (match Error (MultiErrors (e1 :: e2 :: r1)),
                    messages (e3 :: r2) with
              | Done msg, Done msgs => Done (msg :: msgs)
              | _, _ => Panic
              end).
      rewrite Error_MultiErrors.
      destruct (messages (e1 :: e2 :: r1)) as [m1|]; [|done].
      destruct (messages (e3 :: r2)) as [m2|]; [|done].
      by rewrite joined_nested.
Qed.

Lemma append_assoc (a b c : string) : (a +:+ b) +:+ c = a +:+ b +:+ c.
Proof.
  induction a as [|x a IH]; [done|].
  change (String x ((a +:+ b) +:+ c) = String x (a +:+ b +:+ c)).
  by rewrite IH.
Qed.

Lemma foldl_write_nonempty (buf : string) (msgs : list string) :
  buf ≠ "" → foldl write buf msgs = String.concat ", " (buf :: msgs).
Proof.
  revert buf. induction msgs as [|msg rest IH]; intros buf Hbuf; [done|].
  assert (Hwrite : write buf msg = buf +:+ ", " +:+ msg).
  { destruct buf as [|x buf]; [done|].
    unfold write. simpl Nat.ltb. apply append_assoc. }
  change (foldl write buf (msg :: rest)) with (foldl write (write buf msg) rest).
  rewrite Hwrite, IH by (by destruct buf).
  destruct rest as [|msg' rest]; simpl; [done|].
  by rewrite !append_assoc.
Qed.

(** X6: when the first message is not empty, the message of a composite
    is the messages joined by [", "]. *)
Theorem Error_MultiErrors_joins (errs : list error) (msg : string)
  (msgs : list string) :
  messages errs = Done (msg :: msgs) →
  msg ≠ "" →
  Error (MultiErrors errs) = Done (String.concat ", " (msg :: msgs)).
Proof.
  intros Hmsgs Hmsg. rewrite Error_MultiErrors, Hmsgs. f_equal.
  unfold joined. simpl. rewrite write_empty.
  by apply foldl_write_nonempty.
Qed.

Lemma Error_MultiErrors_joins_witness :
  Error (MultiErrors [Errorf "a"; Errorf ""; Errorf "b"])
  = Done (String.concat ", " ["a"; ""; "b"]).
Proof. by apply Error_MultiErrors_joins. Defined.

Lemma Add_all (e inErrors : list error) :
  foldl Add e inErrors = e ++ present inErrors.
Proof. apply collect_from. Qed.

Lemma present_present (inErrors : list error) :
  present (present inErrors) = present inErrors.
Proof.
  induction inErrors as [|err rest IH]; simpl; [done|].
  destruct err; simpl; by rewrite ?IH.
Qed.

(** X7: the error of an accumulator to which errors were added one by one,
    nil ones among them, is the aggregate of these errors. *)
Theorem Err_Add_all (inErrors : list error) :
  Err (foldl Add [] inErrors) = NewErrors inErrors.
Proof.
  unfold Err. rewrite Add_all. simpl.
  by rewrite (NewErrors_present (present inErrors)), present_present,
    <- NewErrors_present.
Qed.

End ErrorsMore.

(** ** More on the registry *)

Section RegistryMore.

Context {Payload Mapper : Type}.
Variables GuessPluralName Capitalize : string -> string.
Variable EqualFold : string -> string -> bool.
Variable Sprint : Schema Payload -> string.
Variable merrNewErrors : list error -> error.
Variable assignMappers :
  Schema Payload -> M Payload Mapper (Schema Payload * error).

Local Abbreviation defaults := (defaults GuessPluralName Capitalize).
Local Abbreviation normalised := (normalised GuessPluralName Capitalize).
Local Abbreviation idNotSet := (idNotSet Sprint).
Local Abbreviation doAddSchema :=
  (doAddSchema GuessPluralName Capitalize Sprint assignMappers).
Local Abbreviation AddSchema :=
  (AddSchema GuessPluralName Capitalize Sprint assignMappers).
Local Abbreviation MustAddSchema :=
  (MustAddSchema GuessPluralName Capitalize Sprint assignMappers).
Local Abbreviation addAll :=
  (addAll GuessPluralName Capitalize Sprint assignMappers).
Local Abbreviation AddSchemas :=
  (AddSchemas GuessPluralName Capitalize Sprint merrNewErrors assignMappers).
Local Abbreviation mergeAll :=
  (mergeAll GuessPluralName Capitalize Sprint merrNewErrors assignMappers).
Local Abbreviation NewSchemas :=
  (NewSchemas GuessPluralName Capitalize Sprint merrNewErrors assignMappers).
Local Abbreviation EmptySchemas :=
  (EmptySchemas GuessPluralName Capitalize Sprint merrNewErrors assignMappers).
Local Abbreviation keepsIdentity := (keepsIdentity assignMappers).
Local Abbreviation keepsRecords := (keepsRecords assignMappers).
Local Abbreviation returns := (returns assignMappers).
Local Abbreviation answers := (answers EqualFold).
Local Abbreviation scan := (scan (Mapper := Mapper) EqualFold).
Local Abbreviation doSchema :=
  (doSchema (Payload := Payload) (Mapper := Mapper) EqualFold).
Local Abbreviation Schema_ :=
  (Schema_ (Payload := Payload) (Mapper := Mapper) EqualFold).
Local Abbreviation World := (World Payload Mapper).

Implicit Types (c held : Schema Payload) (w : World) (err : error).

(** *** The shape of the state *)

Lemma wellFormed_same w w' :
  heap w' = heap w →
  schemasByID (reg w') = schemasByID (reg w) →
  schemas (reg w') = schemas (reg w) →
  wellFormed w → wellFormed w'.
Proof. unfold wellFormed. by intros -> -> ->. Qed.

Lemma grows_refl w : grows w w.
Proof. unfold grows. split; [done|]. split; [done|]. auto. Qed.

Lemma grows_trans w1 w2 w3 : grows w1 w2 → grows w2 w3 → grows w1 w3.
Proof.
  intros (Hp12 & Hl12 & Hf12) (Hp23 & Hl23 & Hf23).
  split; [by etrans|]. split; [lia|].
  intros q held Hq Hout.
  destruct (Hf12 q held Hq Hout) as [Hq2 Hout2]. by apply Hf23.
Qed.

Lemma grows_same w w' :
  heap w' = heap w →
  schemas (reg w') = schemas (reg w) →
  grows w w'.
Proof.
  intros Hheap Hlist. unfold grows. rewrite Hheap, Hlist.
  split; [done|]. split; [done|]. auto.
Qed.

Lemma wellFormed_new (h : list (Schema Payload)) :
  wellFormed (mkWorld h (emptySchemas Mapper)).
Proof.
  split; [constructor|]. split; [constructor|].
  intros k p Hk. simpl in Hk. by rewrite lookup_empty in Hk.
Qed.

(** One registration keeps the shape and only grows the state. *)
Lemma AddSchema_step c w err w' :
  keepsIdentity → keepsRecords →
  wellFormed w →
  AddSchema c w = Done (err, w') →
  wellFormed w' ∧ grows w w'.
Proof.
  intros Hkeep Hrec Hwf Hadd.
  destruct (AddSchema_inv _ _ _ _ c w err w' Hadd)
    as [(_ & _ & ->)|(_ & c' & err1 & w1 & Hassign & Hcases)].
  { split; [done|apply grows_refl]. }
  destruct (Hrec _ _ _ _ _ Hassign) as (Hheap & Hbyid & Hlist).
  destruct (Hkeep _ _ _ _ _ Hassign) as (Hid & _).
  assert (Hwf1 : wellFormed w1) by by eapply wellFormed_same.
  assert (Hg1 : grows w w1) by by apply grows_same.
  destruct Hcases
    as [(_ & _ & ->)|[(_ & _ & e & old & He & Hold & ->)|(_ & _ & Hnew & ->)]].
  - done.
  - destruct Hwf1 as (Hvalid & Hdup & Hkeys).
    destruct (Hkeys _ _ He) as (Hein & c0 & Hc0 & Hidc0).
    split.
    + split; [|split]; simpl.
      * by rewrite length_insert.
      * done.
      * intros k p Hk. destruct (Hkeys _ _ Hk) as (Hpin & cp & Hcp & Hidcp).
        split; [done|].
        destruct (decide (p = e)) as [->|Hne].
        -- exists c'. split.
           ++ apply list_lookup_insert_eq. by eapply lookup_lt_Some.
           ++ congruence.
        -- exists cp. by rewrite list_lookup_insert_ne.
    + eapply grows_trans; [exact Hg1|].
      split; [done|]. simpl. split; [by rewrite length_insert|].
      intros q held Hq Hout. split; [|done].
      rewrite list_lookup_insert_ne; [done|]. by intros ->.
  - destruct Hwf1 as (Hvalid & Hdup & Hkeys).
    split.
    + split; [|split]; simpl.
      * rewrite length_app. simpl. apply Forall_app. split.
        -- eapply Forall_impl; [exact Hvalid|]. simpl. intros; lia.
        -- constructor; [lia|constructor].
      * apply NoDup_app. split; [done|]. split; [|apply NoDup_singleton].
        intros p Hp Hp'. apply list_elem_of_singleton in Hp'. subst p.
        rewrite Forall_forall in Hvalid. specialize (Hvalid _ Hp). lia.
      * intros k p Hk. destruct (decide (ID c' = k)) as [<-|Hne].
        -- rewrite lookup_insert_eq in Hk. injection Hk as <-.
           split; [apply elem_of_app; right; by left|].
           exists c'. split; [|done].
           by rewrite lookup_app_r, Nat.sub_diag.
        -- rewrite lookup_insert_ne in Hk by done.
           destruct (Hkeys _ _ Hk) as (Hpin & cp & Hcp & Hidcp).
           split; [apply elem_of_app; by left|].
           exists cp. split; [|done].
           rewrite lookup_app_l; [done|]. by eapply lookup_lt_Some.
    + eapply grows_trans; [exact Hg1|].
      split; [by apply prefix_app_r|]. simpl.
      split; [rewrite length_app; lia|].
      intros q held Hq Hout. split.
      * rewrite lookup_app_l; [done|]. by eapply lookup_lt_Some.
      * intros Hin. apply elem_of_app in Hin as [Hin|Hin]; [done|].
        apply list_elem_of_singleton in Hin. subst q.
        apply lookup_lt_Some in Hq. lia.
Qed.

(** X8: the shape [wellFormed] holds of a new registry and is kept by
    [AddSchema], [RemoveSchema], [AddMapper] and [AddFieldMapper], given an
    [assignMappers] that leaves records and identity alone. *)
Theorem wellFormed_is_kept :
  keepsIdentity → keepsRecords →
  (∀ h : list (Schema Payload),
     wellFormed (mkWorld h (emptySchemas Mapper))) ∧
  (∀ c w err w',
     wellFormed w → AddSchema c w = Done (err, w') → wellFormed w') ∧
  (∀ c w w',
     wellFormed w → RemoveSchema c w = Done (tt, w') → wellFormed w') ∧
  (∀ schemaID (m : Mapper) w w',
     wellFormed w → AddMapper schemaID m w = Done (tt, w') → wellFormed w') ∧
  (∀ name (factory : FieldMapperFactory Mapper) w w',
     wellFormed w → AddFieldMapper name factory w = Done (tt, w') →
     wellFormed w').
Proof.
  intros Hkeep Hrec.
  split; [apply wellFormed_new|].
  split; [intros c w err w' Hwf Hadd; by eapply AddSchema_step|].
  split; [|split].
  - intros c w w' (Hvalid & Hdup & Hkeys) Hrm. injection Hrm as <-.
    split; [done|]. split; [done|]. simpl.
    intros k p Hk. apply Hkeys.
    destruct (decide (ID c = k)) as [Heq|Hne].
    + rewrite Heq in Hk. by rewrite lookup_delete_eq in Hk.
    + by rewrite lookup_delete_ne in Hk.
  - intros schemaID m w w' Hwf Hcall. injection Hcall as <-. done.
  - intros name factory w w' Hwf Hcall. injection Hcall as <-.
    by destruct (fieldMappers (reg w)).
Qed.

Lemma doAddSchema_returns c w :
  keepsRecords →
  wellFormed w →
  assignMappers (defaults c) w ≠ Panic →
  ∃ err w', doAddSchema c w = Done (err, w').
Proof.
  intros Hrec (Hvalid & Hdup & Hkeys) Hassign.
  destruct (String.eqb_spec (ID c) "") as [Hid|Hid].
  { rewrite (doAddSchema_empty _ _ Sprint _ c w Hid). eauto. }
  pose proof (setupDefaults_nonempty GuessPluralName Capitalize Sprint
                assignMappers c w Hid) as Hsetup.
  destruct (assignMappers (defaults c) w) as [[[c' err1] w1]|] eqn:Hcall;
    [|done].
  destruct (Hrec _ _ _ _ _ Hcall) as (Hheap & Hbyid & Hlist).
  rewrite (doAddSchema_after_defaults _ _ _ _ c w _ _ _ Hsetup).
  destruct (notNil err1); [eauto|].
  rewrite Hbyid, Hheap.
  destruct (schemasByID (reg w) !! ID c') as [e|] eqn:He; [|eauto].
  destruct (Hkeys _ _ He) as (_ & c0 & -> & _). eauto.
Qed.

(** X9: on a well-formed state [AddSchema] returns, with an error or
    without, whenever [assignMappers] does: no pointer that it follows is
    nil. *)
Theorem AddSchema_returns c w :
  keepsRecords →
  wellFormed w →
  assignMappers (defaults c) w ≠ Panic →
  ∃ err w', AddSchema c w = Done (err, w').
Proof. unfold Registry.AddSchema. apply doAddSchema_returns. Qed.

Lemma scan_returns name l w :
  Forall (fun p => p < length (heap w)) l →
  ∃ r,
    scan name l w = Done (r, w) ∧
    ∀ p, r = Some p →
         p ∈ l ∧ ∃ c, heap w !! p = Some c ∧ answers name c = true.
Proof.
  induction 1 as [|check l Hcheck _ (r & Hscan & Hr)].
  - exists None. split; [done|]. by intros p.
  - rewrite (scan_cons EqualFold). unfold loc in *.
    destruct (lookup_lt_is_Some_2 _ _ Hcheck) as [c Hc]. rewrite Hc.
    destruct (answers name c) eqn:Hans.
    + exists (Some check). split; [done|].
      intros p Hp. injection Hp as <-. split; [by left|eauto].
    + exists r. split; [done|].
      intros p Hp. destruct (Hr p Hp) as [Hin Hfound]. split; [by right|done].
Qed.

(** X10: on a well-formed state a lookup returns, writes nothing, and the
    record it returns, if any, is in the ordered sequence and either has
    the name as its ID or answers to it under [EqualFold]. *)
Theorem doSchema_on_wellFormed name lock w :
  wellFormed w →
  ∃ r,
    doSchema name lock w = Done (r, w) ∧
    ∀ p, r = Some p →
         p ∈ Schemas_ (reg w) ∧
         ∃ c, heap w !! p = Some c ∧ (ID c = name ∨ answers name c = true).
Proof.
  intros (Hvalid & Hdup & Hkeys).
  unfold Registry.doSchema, bind, getReg. simpl.
  destruct (schemasByID (reg w) !! name) as [p|] eqn:Hname.
  - exists (Some p). split; [done|].
    intros q Hq. injection Hq as <-.
    destruct (Hkeys _ _ Hname) as (Hin & c & Hc & Hid). eauto.
  - destruct (scan_returns name _ w Hvalid) as (r & Hscan & Hr).
    exists r. split; [done|].
    intros p Hp. destruct (Hr p Hp) as (Hin & c & Hc & Hans). eauto.
Qed.

(** *** Merging *)

Lemma addAll_cons p l errs w :
  addAll (p :: l) errs w =
    match heap w !! p with
    | Some v =>
        match AddSchema v w with
        | Done (err, w1) =>
            addAll l (if notNil err then errs ++ [err] else errs) w1
        | Panic => Panic
        end
    | None => Panic
    end.
Proof.
  simpl. unfold bind, load.
  destruct (heap w !! p) as [v|]; [|done].
  by destruct (Registry.AddSchema _ _ _ _ v w) as [[err w1]|].
Qed.

Lemma addAll_step l errs w errs' w' :
  keepsIdentity → keepsRecords →
  wellFormed w →
  addAll l errs w = Done (errs', w') →
  wellFormed w' ∧ grows w w'.
Proof.
  intros Hkeep Hrec. revert errs w.
  induction l as [|p l IH]; intros errs w Hwf Hrun.
  - simpl in Hrun. injection Hrun as _ <-. split; [done|apply grows_refl].
  - rewrite addAll_cons in Hrun.
    destruct (heap w !! p) as [v|]; [|done].
    destruct (AddSchema v w) as [[err w1]|] eqn:Hadd; [|done].
    destruct (AddSchema_step v w err w1 Hkeep Hrec Hwf Hadd) as [Hwf1 Hg1].
    destruct (IH _ _ Hwf1 Hrun) as [Hwf' Hg']. split; [done|].
    by eapply grows_trans.
Qed.

Lemma addAll_returns l errs w :
  keepsIdentity → keepsRecords → returns →
  wellFormed w →
  Forall (fun p => p < length (heap w)) l →
  ∃ errs' w', addAll l errs w = Done (errs', w').
Proof.
  intros Hkeep Hrec Hret. revert errs w.
  induction l as [|p l IH]; intros errs w Hwf Hvalid.
  - simpl. unfold ret. eauto.
  - rewrite addAll_cons. inversion Hvalid as [|? ? Hp Hl]; subst.
    unfold loc in *.
    destruct (lookup_lt_is_Some_2 _ _ Hp) as [v ->].
    destruct (doAddSchema_returns v w Hrec Hwf (Hret _ _))
      as (err & w1 & Hadd).
    change (doAddSchema v w) with (AddSchema v w) in Hadd. rewrite Hadd.
    destruct (AddSchema_step v w err w1 Hkeep Hrec Hwf Hadd)
      as [Hwf1 (_ & Hlen & _)].
    apply IH; [done|].
    eapply Forall_impl; [exact Hl|]. simpl. intros; lia.
Qed.

Lemma AddSchemas_step (source : Schemas Mapper) w err w' :
  keepsIdentity → keepsRecords →
  wellFormed w →
  AddSchemas source w = Done (err, w') →
  wellFormed w' ∧ grows w w'.
Proof.
  intros Hkeep Hrec Hwf Hrun. unfold Registry.AddSchemas, bind in Hrun.
  destruct (addAll (Schemas_ source) [] w) as [[errs w1]|] eqn:Hall; [|done].
  injection Hrun as _ <-. by eapply addAll_step.
Qed.

(** X11: merging a registry into a well-formed one leaves it well-formed
    and only grows it: the ordered sequence keeps its entries at their
    positions, and a record outside it, such as a record of the source
    that the target does not share, keeps its value. *)
Theorem AddSchemas_grows (source : Schemas Mapper) w err w' :
  keepsIdentity → keepsRecords →
  wellFormed w →
  AddSchemas source w = Done (err, w') →
  wellFormed w' ∧ grows w w'.
Proof. apply AddSchemas_step. Qed.

(** X12: merging returns whenever the target is well-formed, the pointers
    of the source are those of allocated records and [assignMappers]
    returns. *)
Theorem AddSchemas_returns (source : Schemas Mapper) w :
  keepsIdentity → keepsRecords → returns →
  wellFormed w →
  Forall (fun p => p < length (heap w)) (Schemas_ source) →
  ∃ err w', AddSchemas source w = Done (err, w').
Proof.
  intros Hkeep Hrec Hret Hwf Hvalid. unfold Registry.AddSchemas, bind.
  destruct (addAll_returns (Schemas_ source) [] w Hkeep Hrec Hret Hwf Hvalid)
    as (errs & w' & ->).
  unfold ret. eauto.
Qed.

Lemma mergeAll_step (sources : list (Schemas Mapper)) errs w errs' w' :
  keepsIdentity → keepsRecords →
  wellFormed w →
  mergeAll sources errs w = Done (errs', w') →
  wellFormed w' ∧ grows w w'.
Proof.
  intros Hkeep Hrec. revert errs w.
  induction sources as [|source sources IH]; intros errs w Hwf Hrun.
  - simpl in Hrun. injection Hrun as _ <-. split; [done|apply grows_refl].
  - simpl in Hrun. unfold bind at 1 in Hrun.
    destruct (AddSchemas source w) as [[err w1]|] eqn:Hadd; [|done].
    destruct (AddSchemas_step source w err w1 Hkeep Hrec Hwf Hadd)
      as [Hwf1 Hg1].
    destruct (IH _ _ Hwf1 Hrun) as [Hwf' Hg']. split; [done|].
    by eapply grows_trans.
Qed.


(** *** Registration and lookup *)

(** X14: a schema that [AddSchema] accepts is found by a lookup of its ID,
    and the record found holds the schema with its identity normalised. *)
Theorem AddSchema_then_Schema c w w' :
  keepsIdentity →
  ID c ≠ "" →
  AddSchema c w = Done (nil, w') →
  ∃ p stored,
    Schema_ (ID c) w' = Done (Some p, w') ∧
    load p w' = Done (stored, w') ∧
    normalised c stored.
Proof.
  intros Hkeep Hid Hadd.
  destruct (AddSchema_stores _ _ _ _ c w w' Hid Hadd)
    as (c' & w1 & p & Hassign & Hp & Hc').
  destruct (keepsIdentity_normalised _ _ _ c c' w w1 nil Hkeep Hassign)
    as [Hnorm Hsame].
  exists p, c'.
  unfold Registry.Schema_, Registry.doSchema, bind, getReg, load. simpl.
  by rewrite <- Hsame, Hp, Hc'.
Qed.

(** X15: [MustAddSchema] returns exactly when [AddSchema] returns nil, and
    then leaves the state that [AddSchema] leaves; on a schema without ID
    it panics. *)
Theorem MustAddSchema_returns_iff c w :
  (∀ w', MustAddSchema c w = Done (tt, w') ↔ AddSchema c w = Done (nil, w')) ∧
  (ID c = "" → MustAddSchema c w = Panic).
Proof.
  unfold Registry.MustAddSchema, bind. split.
  - intros w'. destruct (AddSchema c w) as [[err w1]|]; [|done].
    destruct err; simpl; split; intros Heq; try done;
      by injection Heq as <-.
  - intros Hid. unfold Registry.AddSchema.
    by rewrite (doAddSchema_empty _ _ Sprint _ c w Hid).
Qed.

(** X16: [AddFieldMapper] makes the map of factories when it is nil, puts
    the factory under the name, over a factory registered there before,
    and leaves the other names and the rest of the state as they were. *)
Theorem AddFieldMapper_registers name (factory : FieldMapperFactory Mapper)
  w :
  ∃ w' m,
    AddFieldMapper (Payload := Payload) name factory w = Done (tt, w') ∧
    fieldMappers (reg w') = Some m ∧
    m !! name = Some factory ∧
    (∀ k, k ≠ name → m !! k = default ∅ (fieldMappers (reg w)) !! k) ∧
    schemasByID (reg w') = schemasByID (reg w) ∧
    Schemas_ (reg w') = Schemas_ (reg w) ∧
    mappers (reg w') = mappers (reg w) ∧
    heap w' = heap w.
Proof.
  destruct w as [h [byID ms [fms|] dm dpm l]].
  - exists (mkWorld h (mkSchemas byID ms (Some (<[name := factory]> fms))
                         dm dpm l)), (<[name := factory]> fms).
    split; [done|]. split; [done|]. split; [apply lookup_insert_eq|].
    split; [|done]. intros k Hk. simpl. by rewrite lookup_insert_ne.
  - exists (mkWorld h (mkSchemas byID ms (Some (<[name := factory]> ∅))
                         dm dpm l)), (<[name := factory]> ∅).
    split; [done|]. split; [done|]. split; [apply lookup_insert_eq|].
    split; [|done]. intros k Hk. simpl. by rewrite lookup_insert_ne.
Qed.

(** *** Mapper chains and lookups *)

Lemma doSchema_same name lock w w' r :
  heap w' = heap w →
  schemasByID (reg w') = schemasByID (reg w) →
  schemas (reg w') = schemas (reg w) →
  doSchema name lock w = Done (r, w) →
  doSchema name lock w' = Done (r, w').
Proof.
  intros Hheap Hbyid Hlist.
  unfold Registry.doSchema, bind, getReg. simpl. rewrite Hbyid, Hlist.
  destruct (schemasByID (reg w) !! name) as [p|].
  { intros Hret. by injection Hret as <-. }
  destruct r as [p|]; intros Hscan.
  - apply (scan_Some EqualFold). rewrite Hheap.
    by apply (scan_Some EqualFold).
  - apply (scan_None EqualFold). rewrite Hheap.
    by apply (scan_None EqualFold).
Qed.

(** X17: [AddMapper] touches the chain of its schema ID only: the chains
    of the other IDs are as before, no schema needs to be registered under
    the ID, and every lookup returns what it returned before the call. *)
Theorem AddMapper_leaves_lookups schemaID (m : Mapper) w :
  ∃ w',
    AddMapper schemaID m w = Done (tt, w') ∧
    mapper (reg w') schemaID = mapper (reg w) schemaID ++ [m] ∧
    (∀ k, k ≠ schemaID → mapper (reg w') k = mapper (reg w) k) ∧
    ∀ name lock r,
      doSchema name lock w = Done (r, w) →
      doSchema name lock w' = Done (r, w').
Proof.
  destruct (AddMapper_mapper (Payload := Payload) schemaID m w)
    as (w' & Hcall & Hheap & Hbyid & Hlist & Hchain).
  exists w'. split; [done|]. split; [|split].
  - rewrite Hchain. by case_decide.
  - intros k Hk. rewrite Hchain. case_decide; [congruence|].
    by rewrite app_nil_r.
  - intros name lock r. by apply doSchema_same.
Qed.

End RegistryMore.

(** ** More scenarios *)

Module SampleMore.

Import Sample.

Lemma assignDefaultMappers_returns {Payload Mapper : Type} :
  returns (@assignDefaultMappers Payload Mapper).
Proof.
  intros c w. unfold assignDefaultMappers, bind, getReg, modifyReg, ret.
  simpl. by destruct (DefaultMapper (reg w)), (DefaultPostMapper (reg w)).
Qed.

Lemma registered_x_wellFormed : wellFormed registered_x.
Proof.
  eapply (AddSchema_step GuessPluralName Capitalize Sprint assignMappers
            (schema "x" "xs") start nil registered_x).
  - apply assignDefaultMappers_keepsIdentity.
  - apply assignDefaultMappers_keepsRecords.
  - apply wellFormed_new.
  - vm_compute. reflexivity.
Qed.

(** [RemoveSchema_leaves_the_record_in_reach] on the registry of ["x"]. *)
Lemma RemoveSchema_leaves_the_record_in_reach_witness :
  Schema_ "x" (after (RemoveSchema (schema "x" "")) registered_x)
  ≠ Done (None, after (RemoveSchema (schema "x" "")) registered_x).
Proof.
  apply (RemoveSchema_leaves_the_record_in_reach EqualFold (schema "x" "")
           registered_x (after (RemoveSchema (schema "x" "")) registered_x)
           0 (mkSchema "x" "xs" "X" "Xs" "schema" tt)).
  - reflexivity.
  - reflexivity.
  - vm_compute. by left.
  - vm_compute. reflexivity.
  - reflexivity.
Defined.

(** [wellFormed_is_kept] on the registration of ["x"]. *)
Lemma wellFormed_is_kept_witness : wellFormed registered_x.
Proof.
  destruct (wellFormed_is_kept GuessPluralName Capitalize Sprint assignMappers
              assignDefaultMappers_keepsIdentity
              assignDefaultMappers_keepsRecords)
    as (Hnew & Hadd & _).
  apply (Hadd (schema "x" "xs") start nil registered_x).
  - apply Hnew.
  - vm_compute. reflexivity.
Defined.

(** [AddSchema_returns] on a second registration of ["x"]. *)
Lemma AddSchema_returns_witness :
  ∃ err w', AddSchema (schema "x" "exes") registered_x = Done (err, w').
Proof.
  apply (AddSchema_returns GuessPluralName Capitalize Sprint assignMappers).
  - apply assignDefaultMappers_keepsRecords.
  - apply registered_x_wellFormed.
  - apply assignDefaultMappers_returns.
Defined.

(** [doSchema_on_wellFormed] on a lookup by a plural in upper case. *)
Lemma doSchema_on_wellFormed_witness :
  ∃ r,
    doSchema EqualFold "XS" true registered_x = Done (r, registered_x) ∧
    ∀ p, r = Some p →
         p ∈ Schemas_ (reg registered_x) ∧
         ∃ c, heap registered_x !! p = Some c ∧
              (ID c = "XS" ∨ answers EqualFold "XS" c = true).
Proof.
  apply (doSchema_on_wellFormed EqualFold "XS" true registered_x).
  apply registered_x_wellFormed.
Defined.

(** [AddSchemas_grows] on the batch of three records. *)
Lemma AddSchemas_grows_witness :
  wellFormed (after (AddSchemas batch) three_records) ∧
  grows three_records (after (AddSchemas batch) three_records).
Proof.
  apply (AddSchemas_grows GuessPluralName Capitalize Sprint NewErrors
           assignMappers batch three_records
           (idNotSet Sprint (schema "" ""))).
  - apply assignDefaultMappers_keepsIdentity.
  - apply assignDefaultMappers_keepsRecords.
  - apply wellFormed_new.
  - vm_compute. reflexivity.
Defined.

(** [AddSchemas_returns] on the batch of three records. *)
Lemma AddSchemas_returns_witness :
  ∃ err w', AddSchemas batch three_records = Done (err, w').
Proof.
  apply (AddSchemas_returns GuessPluralName Capitalize Sprint NewErrors
           assignMappers batch three_records).
  - apply assignDefaultMappers_keepsIdentity.
  - apply assignDefaultMappers_keepsRecords.
  - apply assignDefaultMappers_returns.
  - apply wellFormed_new.
  - repeat constructor.
Defined.


Example NewSchemas_of_batch :
  NewSchemas GuessPluralName Capitalize Sprint NewErrors assignMappers
    [batch] (heap three_records)
  = Done (idNotSet Sprint (schema "" ""),
          mkWorld (heap three_records
                     ++ [mkSchema "a" "as" "A" "As" "schema" tt;
                         mkSchema "b" "bs" "B" "Bs" "schema" tt])
            (mkSchemas (<["b" := 4]> (<["a" := 3]> ∅)) ∅ None None None
               [3; 4])).
Proof. vm_compute. reflexivity. Qed.

(** [AddSchema_then_Schema] on testable property 1. *)
Lemma AddSchema_then_Schema_witness :
  ∃ p stored,
    Schema_ "widget" (after (AddSchema (schema "widget" "")) start)
    = Done (Some p, after (AddSchema (schema "widget" "")) start) ∧
    load p (after (AddSchema (schema "widget" "")) start)
    = Done (stored, after (AddSchema (schema "widget" "")) start) ∧
    normalised GuessPluralName Capitalize (schema "widget" "") stored.
Proof.
  apply (AddSchema_then_Schema GuessPluralName Capitalize EqualFold Sprint
           assignMappers (schema "widget" "") start).
  - apply assignDefaultMappers_keepsIdentity.
  - discriminate.
  - vm_compute. reflexivity.
Defined.

End SampleMore.
